(** * Edge orchestration: the request path of [orchestrationapi]

    A shallow embedding of [src/orchestrationapi/orchestration_api.go]:
    request intake and validation, session-slot allocation, candidate
    scoring under a time budget, ranking, command matching and dispatch.

    Conventions.
    - Go's [float64] is Rocq's primitive binary64 [float]; [a > b] is
      [b <? a] and [a == b] is [a =? b], so NaN and signed zero behave
      as in Go.
    - A function that may panic (index out of range) or call a
      collaborator runs in the monad [M]: state passing over [world],
      with [Panic] as the abnormal outcome.
    - Collaborators outside this package ([commandstore], [dbhelper],
      [sysDB], [networkhelper], [scoringmgr], [client], [servicemgr])
      are the fields of [orcheImpl]; every invocation is recorded in the
      world's [calls].
    - [sort.Slice] belongs to Go's library; it is the class [SortSlice],
      given by its documented contract, with the library's small-slice
      algorithms as instances.
    - A request is followed from its call to its return with no other
      request running in between; what is stated of the counter and the
      slots is stated of requests served that way.  The workers of a
      scoring round are followed in launch order, so the order of the
      scoring calls in the trace is that convention's, not the code's. *)

From Stdlib Require Import String ZArith Bool Lia Floats List.
From Stdlib Require Import Permutation Sorted.
Import ListNotations.

Local Open Scope string_scope.
Local Open Scope list_scope.

(** ** float64 *)

Module F64.

Definition float64 := float.

(** Go's [a > b]. *)
Definition gt (a b : float64) : bool := PrimFloat.ltb b a.
(** Go's [a == b]. *)
Definition eq (a b : float64) : bool := PrimFloat.eqb a b.
(** Go's [a >= b]. *)
Definition ge (a b : float64) : bool := PrimFloat.leb b a.

Definition zero : float64 := 0%float.

(** The position of a number on the extended real line, as a triple
    compared lexicographically: class, then exponent, then mantissa. *)
Definition rank (f : spec_float) : Z * Z * Z :=
  match f with
  | S754_zero _ => (0, 0, 0)
  | S754_infinity true => (-2, 0, 0)
  | S754_infinity false => (2, 0, 0)
  | S754_nan => (0, 0, 0)
  | S754_finite true m e => (-1, - e, Z.neg m)
  | S754_finite false m e => (1, e, Z.pos m)
  end%Z.

Definition lex3 (a b : Z * Z * Z) : comparison :=
  let '(a1, a2, a3) := a in
  let '(b1, b2, b3) := b in
  match (a1 ?= b1)%Z with
  | Eq => match (a2 ?= b2)%Z with
          | Eq => (a3 ?= b3)%Z
          | c => c
          end
  | c => c
  end.

Definition lex_lt (a b : Z * Z * Z) : Prop :=
  let '(a1, a2, a3) := a in
  let '(b1, b2, b3) := b in
  (a1 < b1 \/ (a1 = b1 /\ (a2 < b2 \/ (a2 = b2 /\ a3 < b3))))%Z.

Definition number (x : float64) : Prop := PrimFloat.is_nan x = false.

Definition key (x : float64) : Z * Z * Z := rank (Prim2SF x).

End F64.
Import F64.

Section Float64Order.

Lemma lex3_Lt a b : lex3 a b = Lt <-> lex_lt a b.
Proof.
  destruct a as [[a1 a2] a3], b as [[b1 b2] b3]; unfold lex3, lex_lt.
  destruct (Z.compare_spec a1 b1), (Z.compare_spec a2 b2),
    (Z.compare_spec a3 b3); split; intros X; try discriminate;
    try reflexivity; try lia.
Qed.

Lemma lex3_Eq a b : lex3 a b = Eq <-> a = b.
Proof.
  destruct a as [[a1 a2] a3], b as [[b1 b2] b3]; unfold lex3.
  destruct (Z.compare_spec a1 b1), (Z.compare_spec a2 b2),
    (Z.compare_spec a3 b3); split; intros X; try discriminate;
    try reflexivity; try (injection X; lia); subst; try reflexivity.
Qed.

Lemma lex3_Gt a b : lex3 a b = Gt <-> lex_lt b a.
Proof.
  destruct a as [[a1 a2] a3], b as [[b1 b2] b3]; unfold lex3, lex_lt.
  destruct (Z.compare_spec a1 b1), (Z.compare_spec a2 b2),
    (Z.compare_spec a3 b3); split; intros X; try discriminate;
    try reflexivity; try lia.
Qed.

Lemma SFcompare_rank f1 f2 :
  f1 <> S754_nan -> f2 <> S754_nan ->
  SFcompare f1 f2 = Some (lex3 (rank f1) (rank f2)).
Proof.
  intros H1 H2.
  destruct f1 as [s1|s1| |s1 m1 e1], f2 as [s2|s2| |s2 m2 e2];
    try congruence;
    try destruct s1; try destruct s2; try reflexivity.
  cbn [SFcompare rank lex3]. rewrite Z.compare_refl, Z.compare_opp.
  rewrite (Z.compare_antisym e1 e2).
  destruct (e1 ?= e2)%Z; reflexivity.
Qed.

Lemma number_not_nan x : number x -> Prim2SF x <> S754_nan.
Proof.
  unfold number, is_nan. intros H E.
  rewrite eqb_spec, E in H. discriminate.
Qed.

Lemma gt_key x y : number x -> number y -> (gt x y = true <-> lex_lt (key y) (key x)).
Proof.
  intros Hx Hy. unfold gt, key. rewrite ltb_spec. unfold SFltb.
  rewrite SFcompare_rank by auto using number_not_nan.
  rewrite <- lex3_Lt. destruct (lex3 _ _); split; congruence.
Qed.

Lemma eq_key x y : number x -> number y -> (eq x y = true <-> key x = key y).
Proof.
  intros Hx Hy. unfold eq, key. rewrite eqb_spec. unfold SFeqb.
  rewrite SFcompare_rank by auto using number_not_nan.
  rewrite <- lex3_Eq. destruct (lex3 _ _); split; congruence.
Qed.

Lemma ge_key x y :
  number x -> number y -> (ge x y = true <-> ~ lex_lt (key x) (key y)).
Proof.
  intros Hx Hy. unfold ge, key. rewrite leb_spec. unfold SFleb.
  rewrite SFcompare_rank by auto using number_not_nan.
  rewrite <- lex3_Gt. destruct (lex3 _ _); split; congruence.
Qed.

End Float64Order.

(** [data[i] = v] on a slice or array; the bounds check is the caller's. *)
Fixpoint set_nth {A : Type} (i : nat) (v : A) (data : list A) : list A :=
  match data, i with
  | [], _ => []
  | _ :: rest, O => v :: rest
  | d :: rest, S i' => d :: set_nth i' v rest
  end.

(** ** Go's [sort.Slice]

    [sort.Slice(x, less)] sorts [x] in place by [less]; the library
    promises a sorted permutation when [less] is a transitive ordering
    (the requirements of [sort.Interface]) and, in its own words, "the
    sort is not guaranteed to be stable".  [ordering_on P less] states
    the requirements on the elements that satisfy [P]. *)

Record ordering_on {A : Type} (P : A -> Prop) (less : A -> A -> bool) : Prop := {
  less_irrefl : forall x, P x -> less x x = false;
  less_trans : forall x y z, P x -> P y -> P z ->
    less x y = true -> less y z = true -> less x z = true;
  less_incomparable : forall x y z, P x -> P y -> P z ->
    less x y = false -> less y z = false -> less x z = false
}.

(** [a] may stand before [b] in a slice sorted by [less]. *)
Definition not_after {A : Type} (less : A -> A -> bool) (a b : A) : Prop :=
  less b a = false.

Class SortSlice := {
  sort_Slice : forall {A : Type}, list A -> (A -> A -> bool) -> list A;
  sort_Slice_Permutation : forall (A : Type) (x : list A) less,
    Permutation x (sort_Slice x less);
  sort_Slice_sorted : forall (A : Type) (P : A -> Prop) (x : list A) less,
    ordering_on P less -> Forall P x ->
    StronglySorted (not_after less) (sort_Slice x less)
}.

(** The library's algorithms for slices of at most twelve elements,
    which is where its versions differ in the order of equal elements:
    - [insertionSort] alone (pdqsort, Go 1.19 and later);
    - one ShellSort pass with gap 6 followed by [insertionSort]
      (quickSort, up to Go 1.18).
    Each sorts a slice of any length and so meets the contract; it is
    the library's own run on slices of at most twelve elements. *)
Module GoSort.
Section Algorithms.

Context {A : Type} (less : A -> A -> bool).

(** [data.Swap(i, j)] *)
Definition Swap (i j : nat) (data : list A) : list A :=
  match nth_error data i, nth_error data j with
  | Some a, Some b => set_nth i b (set_nth j a data)
  | _, _ => data
  end.

(** The inner loop of [insertionSort],
    [for j := i; j > a && less(j, j-1); j-- { swap(j, j-1) }]:
    [x] is [data[i]] and [before] is [data[a:i]], last element first. *)
Fixpoint sink (x : A) (before : list A) : list A :=
  match before with
  | [] => [x]
  | p :: before' => if less x p then p :: sink x before' else x :: before
  end.

(** [for i := a + 1; i < b; i++ { ... }] *)
Definition insertionSort (data : list A) : list A :=
  rev (fold_left (fun before x => sink x before) data []).

(** [if data.Less(i, i-6) { data.Swap(i, i-6) }] *)
Definition shellStep (data : list A) (i : nat) : list A :=
  match nth_error data i, nth_error data (i - 6) with
  | Some x, Some y => if less x y then Swap i (i - 6) data else data
  | _, _ => data
  end.

(** [for i := a + 6; i < b; i++ { ... }] *)
Definition shellPass (data : list A) : list A :=
  fold_left shellStep (seq 6 (length data - 6)) data.

(** The tail of [quickSort], reached at once when [b-a <= 12]. *)
Definition quickSort (data : list A) : list A :=
  if (1 <? length data)%nat then insertionSort (shellPass data) else data.

End Algorithms.
End GoSort.

Section GoSortCorrect.

Context {A : Type} (less : A -> A -> bool).
Import GoSort.

Lemma less_asym (P : A -> Prop) x y :
  ordering_on P less -> P x -> P y -> less x y = true -> less y x = false.
Proof.
  intros O Hx Hy Hxy. destruct (less y x) eqn:E; [|reflexivity].
  rewrite <- (less_irrefl P less O x Hx).
  symmetry. apply (less_trans P less O x y x); assumption.
Qed.

Lemma sink_Permutation x before : Permutation (x :: before) (sink less x before).
Proof.
  induction before as [|p before IH]; cbn; [reflexivity|].
  destruct (less x p); [|reflexivity].
  rewrite perm_swap. now apply perm_skip.
Qed.

Lemma fold_sink_Permutation data acc :
  Permutation (acc ++ data) (fold_left (fun b x => sink less x b) data acc).
Proof.
  revert acc. induction data as [|x data IH]; intros acc; cbn.
  - now rewrite app_nil_r.
  - rewrite <- IH, <- sink_Permutation. cbn.
    symmetry. apply Permutation_middle.
Qed.

Lemma insertionSort_Permutation data : Permutation data (insertionSort less data).
Proof.
  unfold insertionSort. rewrite <- Permutation_rev.
  apply (fold_sink_Permutation data []).
Qed.

Lemma set_nth_Permutation (t : list A) j b h :
  nth_error t j = Some b -> Permutation (b :: set_nth j h t) (h :: t).
Proof.
  revert j. induction t as [|c t IH]; intros [|j] E; cbn in *; try discriminate.
  - injection E as ->. apply perm_swap.
  - rewrite perm_swap. rewrite (IH j E). apply perm_swap.
Qed.

Lemma Swap_Permutation i j (data : list A) : Permutation data (Swap i j data).
Proof.
  unfold Swap.
  destruct (nth_error data i) as [a|] eqn:Ei; [|reflexivity].
  destruct (nth_error data j) as [b|] eqn:Ej; [|reflexivity].
  revert i j Ei Ej.
  induction data as [|h t IH]; intros [|i] [|j] Ei Ej; cbn in *;
    try discriminate.
  - injection Ei as ->. injection Ej as ->. reflexivity.
  - injection Ei as ->. symmetry. now apply set_nth_Permutation.
  - injection Ej as ->. symmetry. now apply set_nth_Permutation.
  - apply perm_skip. now apply IH.
Qed.

Lemma shellStep_Permutation data i : Permutation data (shellStep less data i).
Proof.
  unfold shellStep.
  destruct (nth_error data i); [|reflexivity].
  destruct (nth_error data (i - 6)); [|reflexivity].
  destruct (less a a0); [apply Swap_Permutation | reflexivity].
Qed.

Lemma shellPass_Permutation data : Permutation data (shellPass less data).
Proof.
  unfold shellPass. generalize (seq 6 (length data - 6)) as idx.
  intros idx. revert data.
  induction idx as [|i idx IH]; intros data; cbn; [reflexivity|].
  rewrite <- IH. apply shellStep_Permutation.
Qed.

Lemma quickSort_Permutation data : Permutation data (quickSort less data).
Proof.
  unfold quickSort. destruct (1 <? length data)%nat; [|reflexivity].
  rewrite <- insertionSort_Permutation. apply shellPass_Permutation.
Qed.

(** Sortedness.  [before] is kept last element first, so it is sorted
    by the converse of [not_after]. *)
Lemma sink_sorted (P : A -> Prop) x before :
  ordering_on P less -> P x -> Forall P before ->
  StronglySorted (fun u v => less u v = false) before ->
  StronglySorted (fun u v => less u v = false) (sink less x before).
Proof.
  intros O Hx HP HS.
  induction HS as [|p before HS IH Hp]; cbn.
  - repeat constructor.
  - inversion HP as [|? ? Pp Pb]; subst.
    destruct (less x p) eqn:E.
    + constructor; [now apply IH|].
      apply (Permutation_Forall (sink_Permutation x before)).
      constructor; [|assumption].
      now apply (less_asym P x p).
    + constructor; [now constructor|].
      constructor; [assumption|].
      rewrite Forall_forall in Hp, Pb |- *. intros y Hy.
      apply (less_incomparable P less O x p y); auto.
Qed.

Lemma fold_sink_sorted (P : A -> Prop) data acc :
  ordering_on P less -> Forall P data -> Forall P acc ->
  StronglySorted (fun u v => less u v = false) acc ->
  StronglySorted (fun u v => less u v = false)
    (fold_left (fun b x => sink less x b) data acc).
Proof.
  intros O. revert acc.
  induction data as [|x data IH]; intros acc Hd Ha HS; cbn; [assumption|].
  inversion Hd; subst. apply IH; [assumption| |].
  - apply (Permutation_Forall (sink_Permutation x acc)). now constructor.
  - now apply (sink_sorted P).
Qed.

Lemma StronglySorted_snoc (R : A -> A -> Prop) l x :
  StronglySorted R l -> Forall (fun y => R y x) l ->
  StronglySorted R (l ++ [x]).
Proof.
  induction 1 as [|a l HS IH Ha]; intros Hx; cbn.
  - repeat constructor.
  - inversion Hx; subst. constructor; [now apply IH|].
    apply Forall_app. split; [assumption|now constructor].
Qed.

Lemma StronglySorted_rev (R : A -> A -> Prop) l :
  StronglySorted (fun u v => R v u) l -> StronglySorted R (rev l).
Proof.
  induction 1 as [|a l HS IH Ha]; cbn; [constructor|].
  apply StronglySorted_snoc; [assumption|].
  apply Forall_rev. assumption.
Qed.

Lemma insertionSort_sorted (P : A -> Prop) data :
  ordering_on P less -> Forall P data ->
  StronglySorted (not_after less) (insertionSort less data).
Proof.
  intros O Hd. unfold insertionSort. apply StronglySorted_rev.
  apply (fold_sink_sorted P); auto; constructor.
Qed.

Lemma quickSort_sorted (P : A -> Prop) data :
  ordering_on P less -> Forall P data ->
  StronglySorted (not_after less) (quickSort less data).
Proof.
  intros O Hd. unfold quickSort.
  destruct (1 <? length data)%nat eqn:E.
  - apply (insertionSort_sorted P); [assumption|].
    apply (Permutation_Forall (shellPass_Permutation data)). assumption.
  - apply Nat.ltb_ge in E.
    destruct data as [|a [|b data]]; cbn in E; try lia; repeat constructor.
Qed.

End GoSortCorrect.

(** pdqsort's small-slice path. *)
Definition pdqsort12 : SortSlice := {|
  sort_Slice := fun A x less => GoSort.insertionSort less x;
  sort_Slice_Permutation := fun A x less => insertionSort_Permutation less x;
  sort_Slice_sorted := fun A P x less => insertionSort_sorted less P x
|}.

(** quickSort's small-slice path. *)
Definition quickSort12 : SortSlice := {|
  sort_Slice := fun A x less => GoSort.quickSort less x;
  sort_Slice_Permutation := fun A x less => quickSort_Permutation less x;
  sort_Slice_sorted := fun A P x less => quickSort_sorted less P x
|}.

(** ** Data model *)

Record deviceScore := {
  id : string;
  endpoint : string;
  score : float64;
  execType : string
}.

(** A channel is named by the order in which [make] created it; [None]
    is the nil channel of a zero-valued struct. *)
Definition chan := nat.

Record orcheClient := {
  appName : string;
  args : list string;
  notiChan : option chan;
  endSignal : option chan
}.

Record RequestServiceInfo := {
  ExecutionType : string;
  ExeCmd : list string
}.

Record ReqeustService := {
  ServiceName : string;
  ServiceInfo : list RequestServiceInfo
}.

Record TargetInfo := {
  TargetExecutionType : string;
  Target : string
}.

Record ResponseService := {
  Message : string;
  ResponseServiceName : string;
  RemoteTargetInfo : TargetInfo
}.

(** [TargetInfo{}] *)
Definition TargetInfo_zero : TargetInfo :=
  {| TargetExecutionType := ""; Target := "" |}.

(** [orcheClient{}] *)
Definition orcheClient_zero : orcheClient :=
  {| appName := ""; args := []; notiChan := None; endSignal := None |}.

Definition ERROR_NONE := "ERROR_NONE".
Definition INVALID_PARAMETER := "INVALID_PARAMETER".
Definition SERVICE_NOT_FOUND := "SERVICE_NOT_FOUND".
Definition INTERNAL_SERVER_ERROR := "INTERNAL_SERVER_ERROR".
Definition NOT_ALLOWED_COMMAND := "NOT_ALLOWED_COMMAND".

(** Modelled from the spec: [dbhelper.ExecutionCandidate], declared
    outside this package; "{id, endpoint: ordered list of addresses,
    supportedExecutionType}", with the field names the code reads. *)
Record ExecutionCandidate := {
  Id : string;
  ExecType : string;
  Endpoint : list string
}.

(** A Go result pair [(v, err)] whose value is read only when [err] is nil. *)
Inductive result (A : Type) : Type :=
| Ok (v : A)
| Err (msg : string).
Arguments Ok {A} v.
Arguments Err {A} msg.

(** What a scoring call yields within one scoring round: a score, an
    error, or no return before the round's timer fires. *)
Inductive reply : Type :=
| Scored (s : float64)
| Failed (msg : string)
| Late.

(** Collaborators reached through package-level variables and
    singletons, the constant [scoringmgr.INVALID_SCORE] (declared
    outside this package, so left open here), and the scheduler: the
    order in which the scores sent during a round reach the collector,
    as the position picked among the sends still unread. *)
Record externals := {
  GetServiceFileName : string -> string;
  GetDeviceInfoWithService :
    string -> list string -> result (list ExecutionCandidate);
  sysDB_Get : result string;
  INVALID_SCORE : float64;
  arrival : list nat
}.

(** The engine: its ready flag and the collaborators it holds. *)
Record orcheImpl := {
  Ready : bool;
  GetIPs : list string * option string;
  GetScore : string -> reply;
  DoGetScoreRemoteDevice : string -> string -> reply
}.

(** Invocations of collaborators, and goroutines left running. *)
Inductive call : Type :=
| CommandStore (serviceName : string)
| Resolver (appName : string) (execType : list string)
| SystemDB
| Network
| LocalScoring (devid : string)
| RemoteScoring (devid endpoint : string)
| Execute (endpoint serviceName : string) (args : list string)
          (notiChan : option chan)
| ListenNotify (client : nat).

(** Package-level state, the channels made so far, and the trace. *)
Record world := {
  orchClientID : Z;
  orcheClients : list orcheClient;
  made : nat;
  calls : list call
}.

Definition maxClients : Z := 1024.

(** The state at program start: [orchClientID = -1] and 1024 zero slots. *)
Definition world_init : world :=
  {| orchClientID := -1;
     orcheClients := repeat orcheClient_zero (Z.to_nat maxClients);
     made := 0;
     calls := [] |}.

(** ** The monad of the request path *)

Inductive outcome (A : Type) : Type :=
| Panic
| Done (a : A) (w : world).
Arguments Panic {A}.
Arguments Done {A} a w.

Definition M (A : Type) : Type := world -> outcome A.

Definition ret {A : Type} (a : A) : M A := fun w => Done a w.

Definition bind {A B : Type} (m : M A) (k : A -> M B) : M B :=
  fun w => match m w with
           | Panic => Panic
           | Done a w' => k a w'
           end.

Definition panic {A : Type} : M A := fun _ => Panic.

Notation "x <- m ;; k" := (bind m (fun x => k))
  (at level 61, m at next level, right associativity).
Notation "m ;;; k" := (bind m (fun _ => k))
  (at level 61, right associativity).

(** The world after the invocations [cs]. *)
Definition logged (cs : list call) (w : world) : world :=
  {| orchClientID := orchClientID w; orcheClients := orcheClients w;
     made := made w; calls := calls w ++ cs |}.

(** A collaborator is invoked: the trace grows, the answer is the one
    the environment fixes. *)
Definition invoke {A : Type} (c : call) (answer : A) : M A :=
  fun w => Done answer (logged [c] w).

Fixpoint mapM {A B : Type} (f : A -> M B) (l : list A) : M (list B) :=
  match l with
  | [] => ret []
  | a :: l' => b <- f a ;; bs <- mapM f l' ;; ret (b :: bs)
  end.

(** [int32] arithmetic wraps around. *)
Definition wrap32 (z : Z) : Z := ((z + 2 ^ 31) mod 2 ^ 32 - 2 ^ 31)%Z.

(** [atomic.AddInt32(&orchClientID, delta)] *)
Definition atomic_AddInt32_orchClientID (delta : Z) : M unit :=
  fun w => Done tt
    {| orchClientID := wrap32 (orchClientID w + delta);
       orcheClients := orcheClients w; made := made w; calls := calls w |}.

(** [int(orchClientID)] *)
Definition load_orchClientID : M Z := fun w => Done (orchClientID w) w.

(** [addServiceClient]: writes [appName] and a fresh [notiChan] into
    slot [clientID] of the fixed array and returns the slot's address.
    An index outside [0, 1024) panics. *)
Definition addServiceClient (clientID : Z) (name : string) : M nat :=
  fun w =>
    if ((0 <=? clientID) && (clientID <? maxClients))%Z then
      let i := Z.to_nat clientID in
      let old := nth i (orcheClients w) orcheClient_zero in
      let new := {| appName := name; args := args old;
                    notiChan := Some (made w); endSignal := endSignal old |} in
      Done i {| orchClientID := orchClientID w;
                orcheClients := set_nth i new (orcheClients w);
                made := S (made w);
                calls := calls w |}
    else Panic.

(** [serviceClient.notiChan], read through the pointer. *)
Definition load_notiChan (client : nat) : M (option chan) :=
  fun w => Done (notiChan (nth client (orcheClients w) orcheClient_zero)) w.

(** ** The program *)

Fixpoint getExecCmds (execType : string)
    (requestServiceInfos : list RequestServiceInfo) : result (list string) :=
  match requestServiceInfos with
  | [] => Err "Not Found"
  | requestServiceInfo :: rest =>
      if String.eqb execType (ExecutionType requestServiceInfo)
      then Ok (ExeCmd requestServiceInfo)
      else getExecCmds execType rest
  end.

Definition isLocalhost (endpoints1 endpoints2 : list string) : bool :=
  existsb (fun endpoint1 =>
             existsb (fun endpoint2 => String.eqb endpoint1 endpoint2)
                     endpoints2)
          endpoints1.

Section Engine.

Context {sorter : SortSlice}.
Variable ext : externals.
Variable orcheEngine : orcheImpl.

Definition sortByScore (deviceScores : list deviceScore) : list deviceScore :=
  sort_Slice deviceScores (fun di dj => gt (score di) (score dj)).

Definition getCandidate (appName : string) (execType : list string)
  : M (result (list ExecutionCandidate)) :=
  invoke (Resolver appName execType)
         (GetDeviceInfoWithService ext appName execType).

(** The goroutine started for one candidate: [None] when its scoring
    call has not returned by the time the round's timer fires, else
    the score it sends on [scores]. *)
Definition worker (info : string) (localhosts : list string)
    (cand : ExecutionCandidate) : M (option deviceScore) :=
  match Endpoint cand with
  | [] =>
      ret (Some {| endpoint := ""; score := zero; id := Id cand;
                   execType := "" |})
  | endpoint0 :: _ =>
      r <- (if isLocalhost (Endpoint cand) localhosts
            then invoke (LocalScoring info) (GetScore orcheEngine info)
            else invoke (RemoteScoring info endpoint0)
                   (DoGetScoreRemoteDevice orcheEngine info endpoint0)) ;;
      match r with
      | Late => ret None
      | Failed _ =>
          ret (Some {| endpoint := endpoint0; score := zero; id := Id cand;
                       execType := "" |})
      | Scored s =>
          ret (Some {| endpoint := endpoint0; score := s; id := Id cand;
                       execType := ExecType cand |})
      end
  end.

(** How the collector goroutine left its loop. *)
Inductive stop : Type := AllReported | TimedOut.

(** The collector's [for { select { ... } }]: [scores] are the sends
    that arrive before the timer fires, in order; once they are
    exhausted the next ready case is [<-timeout]. *)
Fixpoint collector (count index : nat) (deviceScores scores : list deviceScore)
  : list deviceScore * stop :=
  match scores with
  | [] => (deviceScores, TimedOut)
  | score :: scores' =>
      let deviceScores := deviceScores ++ [score] in
      let index := S index in
      if (count =? index)%nat then (deviceScores, AllReported)
      else collector count index deviceScores scores'
  end.

(** The order in which the collector reads what was sent: each pick
    names one of the sends still unread; when the picks run out the
    rest is read in the order sent. *)
Fixpoint received (picks : list nat) (sent : list deviceScore)
  : list deviceScore :=
  match picks with
  | [] => sent
  | k :: picks' =>
      let i := (k mod length sent)%nat in
      match nth_error sent i with
      | Some d => d :: received picks' (firstn i sent ++ skipn (S i) sent)
      | None => []
      end
  end.

(** Keeps the sends that took place. *)
Fixpoint sends (reports : list (option deviceScore)) : list deviceScore :=
  match reports with
  | [] => []
  | Some d :: reports' => d :: sends reports'
  | None :: reports' => sends reports'
  end.

(** One scoring round, with the way the collector stopped ([None]
    when no collector was started).  The goroutines are run as follows:
    the workers are followed in launch order, each to its send; a send
    takes place before the 3 s timer fires unless the worker's scoring
    call is [Late]; the collector then reads the sends in the order
    [arrival] picks, and takes the timeout case once none is left. *)
Definition gatherRound (candidates : list ExecutionCandidate)
  : M (list deviceScore * option stop) :=
  let count := length candidates in
  r <- invoke SystemDB (sysDB_Get ext) ;;
  match r with
  | Err _ => ret ([], None)
  | Ok info =>
      ips <- invoke Network (GetIPs orcheEngine) ;;
      let localhosts := fst ips in
      reports <- mapM (worker info localhosts) candidates ;;
      let '(deviceScores, how) :=
        collector count 0 [] (received (arrival ext) (sends reports)) in
      ret (deviceScores, Some how)
  end.

Definition gatherDevicesScore (candidates : list ExecutionCandidate)
  : M (list deviceScore) :=
  r <- gatherRound candidates ;; ret (fst r).

Definition executeApp (endpoint serviceName : string) (args : list string)
    (notiChan : option chan) : M unit :=
  invoke (Execute endpoint serviceName args notiChan) tt.

Definition response (message serviceName : string) (target : TargetInfo)
  : ResponseService :=
  {| Message := message; ResponseServiceName := serviceName;
     RemoteTargetInfo := target |}.

(** The validation loop of [RequestService]; [Some] is its early return. *)
Fixpoint validate (serviceName : string) (infos : list RequestServiceInfo)
  : M (option ResponseService) :=
  match infos with
  | [] => ret None
  | info :: infos' =>
      if String.eqb (ExecutionType info) "native"
         || String.eqb (ExecutionType info) "android"
      then
        match ExeCmd info with
        | [] => panic
        | cmd0 :: _ =>
            fileName <- invoke (CommandStore serviceName)
                          (GetServiceFileName ext serviceName) ;;
            if negb (String.eqb cmd0 fileName)
            then ret (Some (response NOT_ALLOWED_COMMAND serviceName
                              TargetInfo_zero))
            else validate serviceName infos'
        end
      else validate serviceName infos'
  end.

(** [RequestService] up to candidate resolution (lines 117-155): the
    response of a path that returns before scoring, or the session slot
    claimed and the candidates resolved. *)
Definition intake (serviceInfo : ReqeustService)
  : M (ResponseService + nat * list ExecutionCandidate) :=
  if negb (Ready orcheEngine) then
    ret (inl (response INTERNAL_SERVER_ERROR (ServiceName serviceInfo)
                TargetInfo_zero))
  else
    rejected <- validate (ServiceName serviceInfo) (ServiceInfo serviceInfo) ;;
    match rejected with
    | Some resp => ret (inl resp)
    | None =>
        atomic_AddInt32_orchClientID 1 ;;;
        handle <- load_orchClientID ;;
        serviceClient <- addServiceClient handle (ServiceName serviceInfo) ;;
        invoke (ListenNotify serviceClient) tt ;;;
        let executionTypes := map ExecutionType (ServiceInfo serviceInfo) in
        r <- getCandidate (ServiceName serviceInfo) executionTypes ;;
        match r with
        | Err msg =>
            ret (inl (response msg (ServiceName serviceInfo) TargetInfo_zero))
        | Ok candidates => ret (inr (serviceClient, candidates))
        end
    end.

(** [RequestService] from scoring on (lines 157-187). *)
Definition rankAndDispatch (serviceInfo : ReqeustService) (serviceClient : nat)
    (candidates : list ExecutionCandidate) : M ResponseService :=
  let errorResp :=
    response SERVICE_NOT_FOUND (ServiceName serviceInfo) TargetInfo_zero in
  gathered <- gatherDevicesScore candidates ;;
  let deviceScores := sortByScore gathered in
  match deviceScores with
  | [] => ret errorResp
  | first :: _ =>
      if eq (score first) (INVALID_SCORE ext) then ret errorResp
      else
        match getExecCmds (execType first) (ServiceInfo serviceInfo) with
        | Err msg =>
            ret (response msg (ServiceName serviceInfo) TargetInfo_zero)
        | Ok args =>
            noti <- load_notiChan serviceClient ;;
            executeApp (endpoint first) (ServiceName serviceInfo) args noti ;;;
            ret (response ERROR_NONE (ServiceName serviceInfo)
                   {| TargetExecutionType := execType first;
                      Target := endpoint first |})
        end
  end.

Definition RequestService (serviceInfo : ReqeustService) : M ResponseService :=
  r <- intake serviceInfo ;;
  match r with
  | inl resp => ret resp
  | inr (serviceClient, candidates) =>
      rankAndDispatch serviceInfo serviceClient candidates
  end.

End Engine.

(** ** Vocabulary of the statements *)

(** The execution types the validation loop looks at. *)
Definition packaged (info : RequestServiceInfo) : bool :=
  String.eqb (ExecutionType info) "native"
  || String.eqb (ExecutionType info) "android".

(** The variant goes through the validation loop: it is not of a
    packaged type, or its command line starts with the registered file
    name. *)
Definition allowed (ext : externals) (serviceName : string)
    (info : RequestServiceInfo) : Prop :=
  packaged info = false \/
  exists rest, ExeCmd info = GetServiceFileName ext serviceName :: rest.

(** The command-store lookups the loop makes over [infos]. *)
Definition lookups (serviceName : string) (infos : list RequestServiceInfo)
  : list call :=
  map (fun _ => CommandStore serviceName) (filter packaged infos).

Definition isExecute (c : call) : bool :=
  match c with
  | Execute _ _ _ _ => true
  | _ => false
  end.

Definition isResolver (c : call) : bool :=
  match c with
  | Resolver _ _ => true
  | _ => false
  end.

Definition isScoring (c : call) : bool :=
  match c with
  | LocalScoring _ | RemoteScoring _ _ => true
  | _ => false
  end.

(** What a worker sends for a candidate it cannot score. *)
Definition unscored (candId endpoint : string) : deviceScore :=
  {| id := candId; endpoint := endpoint; score := zero; execType := "" |}.

(** ** The monad and the trace *)

Lemma logged_nil w : logged [] w = w.
Proof. destruct w; unfold logged; cbn. now rewrite app_nil_r. Qed.

Lemma logged_logged cs1 cs2 w : logged cs2 (logged cs1 w) = logged (cs1 ++ cs2) w.
Proof. unfold logged; cbn. now rewrite app_assoc. Qed.

Lemma bind_Done {A B : Type} (m : M A) (k : A -> M B) w a w' :
  m w = Done a w' -> bind m k w = k a w'.
Proof. unfold bind. now intros ->. Qed.

Lemma bind_Panic {A B : Type} (m : M A) (k : A -> M B) w :
  m w = Panic -> bind m k w = Panic.
Proof. unfold bind. now intros ->. Qed.

Lemma bind_inv {A B : Type} (m : M A) (k : A -> M B) w b w'' :
  bind m k w = Done b w'' ->
  exists a w', m w = Done a w' /\ k a w' = Done b w''.
Proof.
  unfold bind. destruct (m w) as [|a w']; [discriminate|].
  intros H. now exists a, w'.
Qed.

(** ** Validation *)

Section Validation.

Variable ext : externals.
Variable serviceName : string.

Lemma validate_allowed infos w :
  Forall (allowed ext serviceName) infos ->
  validate ext serviceName infos w
  = Done None (logged (lookups serviceName infos) w).
Proof.
  intros H. revert w.
  induction H as [|info infos Hi _ IH]; intros w; cbn [validate].
  - unfold ret. now rewrite logged_nil.
  - unfold lookups. cbn [filter]. fold (packaged info).
    destruct Hi as [Hp | [rest Hc]].
    + rewrite Hp. apply IH.
    + destruct (packaged info); [|apply IH].
      rewrite Hc. unfold bind, invoke. rewrite String.eqb_refl. cbn [negb].
      rewrite IH. now rewrite logged_logged.
Qed.

Lemma validate_app pre infos w :
  Forall (allowed ext serviceName) pre ->
  validate ext serviceName (pre ++ infos) w
  = validate ext serviceName infos (logged (lookups serviceName pre) w).
Proof.
  intros H. revert w.
  induction H as [|info pre Hi _ IH]; intros w; cbn [validate app].
  - now rewrite logged_nil.
  - unfold lookups. cbn [filter]. fold (packaged info).
    destruct Hi as [Hp | [rest Hc]].
    + rewrite Hp. apply IH.
    + destruct (packaged info); [|apply IH].
      rewrite Hc. unfold bind, invoke. rewrite String.eqb_refl. cbn [negb].
      rewrite IH. now rewrite logged_logged.
Qed.

Lemma validate_empty_command info infos w :
  packaged info = true -> ExeCmd info = [] ->
  validate ext serviceName (info :: infos) w = Panic.
Proof.
  intros Hp Hc. cbn [validate]. fold (packaged info). now rewrite Hp, Hc.
Qed.

Lemma validate_other_command info infos cmd0 rest w :
  packaged info = true -> ExeCmd info = cmd0 :: rest ->
  cmd0 <> GetServiceFileName ext serviceName ->
  validate ext serviceName (info :: infos) w
  = Done (Some (response NOT_ALLOWED_COMMAND serviceName TargetInfo_zero))
         (logged [CommandStore serviceName] w).
Proof.
  intros Hp Hc Hne. cbn [validate]. fold (packaged info). rewrite Hp, Hc.
  unfold bind, invoke.
  destruct (String.eqb_spec cmd0 (GetServiceFileName ext serviceName));
    [contradiction|reflexivity].
Qed.

End Validation.

(** ** Concrete scenarios *)

Module Scenario.

(** Service "foo" is registered with file name "/bin/foo"; the resolver
    knows one remote device that runs containers; the sentinel is -1. *)
Definition remote1 : ExecutionCandidate :=
  {| Id := "dev1"; ExecType := "container"; Endpoint := ["10.0.0.2"] |}.

Definition ext : externals :=
  {| GetServiceFileName := fun _ => "/bin/foo";
     GetDeviceInfoWithService := fun _ _ => Ok [remote1];
     sysDB_Get := Ok "me";
     INVALID_SCORE := (-1)%float;
     arrival := [] |}.

(** The same with an identity store that fails. *)
Definition ext_anonymous : externals :=
  {| GetServiceFileName := fun _ => "/bin/foo";
     GetDeviceInfoWithService := fun _ _ => Ok [remote1];
     sysDB_Get := Err "no id";
     INVALID_SCORE := (-1)%float;
     arrival := [] |}.

(** The same with 0 as the sentinel. *)
Definition ext_zero_sentinel : externals :=
  {| GetServiceFileName := fun _ => "/bin/foo";
     GetDeviceInfoWithService := fun _ _ => Ok [remote1];
     sysDB_Get := Ok "me";
     INVALID_SCORE := 0%float;
     arrival := [] |}.

(** A placeholder device: no endpoint. *)
Definition placeholder (name : string) : ExecutionCandidate :=
  {| Id := name; ExecType := "container"; Endpoint := [] |}.

(** A ready engine on host 10.0.0.1 whose remote scoring calls fail. *)
Definition engine : orcheImpl :=
  {| Ready := true;
     GetIPs := (["10.0.0.1"], None);
     GetScore := fun _ => Scored 0.5%float;
     DoGetScoreRemoteDevice := fun _ _ => Failed "unreachable" |}.

(** A ready engine on host 10.0.0.1 whose remote scoring calls return
    only after the round's timer has fired. *)
Definition engine_late : orcheImpl :=
  {| Ready := true;
     GetIPs := (["10.0.0.1"], None);
     GetScore := fun _ => Scored 0.5%float;
     DoGetScoreRemoteDevice := fun _ _ => Late |}.

(** An engine that is not ready. *)
Definition engine_starting : orcheImpl :=
  {| Ready := false;
     GetIPs := ([], Some "down");
     GetScore := fun _ => Late;
     DoGetScoreRemoteDevice := fun _ _ => Late |}.

Definition container_foo : ReqeustService :=
  {| ServiceName := "foo";
     ServiceInfo := [{| ExecutionType := "container";
                        ExeCmd := ["run"; "foo"] |}] |}.

(** Two devices that run "foo" natively: this host and a remote one. *)
Definition local_native : ExecutionCandidate :=
  {| Id := "dev0"; ExecType := "native"; Endpoint := ["10.0.0.1"] |}.

Definition remote_native : ExecutionCandidate :=
  {| Id := "dev2"; ExecType := "native"; Endpoint := ["10.0.0.3"] |}.

Definition ext_native : externals :=
  {| GetServiceFileName := fun _ => "/bin/foo";
     GetDeviceInfoWithService := fun _ _ => Ok [local_native; remote_native];
     sysDB_Get := Ok "me";
     INVALID_SCORE := (-1)%float;
     arrival := [1] |}.

(** A ready engine on host 10.0.0.1: it scores itself 0.75, and the
    remote device answers 0.5. *)
Definition engine_scoring : orcheImpl :=
  {| Ready := true;
     GetIPs := (["10.0.0.1"], None);
     GetScore := fun _ => Scored 0.75%float;
     DoGetScoreRemoteDevice := fun _ _ => Scored 0.5%float |}.

Definition native_foo : ReqeustService :=
  {| ServiceName := "foo";
     ServiceInfo := [{| ExecutionType := "native";
                        ExeCmd := ["/bin/foo"; "-v"] |}] |}.

(** The world once the first request for "foo" has claimed slot 0 and
    the resolver has answered. *)
Definition claimed (cs : list call) : world :=
  {| orchClientID := 0;
     orcheClients :=
       set_nth 0 {| appName := "foo"; args := []; notiChan := Some 0;
                    endSignal := None |} (orcheClients world_init);
     made := 1;
     calls := cs |}.

Definition after_intake : world :=
  claimed [ListenNotify 0; Resolver "foo" ["container"]].

(** The world once the round over [remote1] has ended. *)
Definition after_round : world :=
  logged [SystemDB; Network; RemoteScoring "me" "10.0.0.2"] after_intake.

Definition no_command : RequestServiceInfo :=
  {| ExecutionType := "native"; ExeCmd := [] |}.

Definition evil_command : RequestServiceInfo :=
  {| ExecutionType := "native"; ExeCmd := ["/bin/evil"] |}.

End Scenario.

(** ** [RequestService]: the paths that end before scoring *)

Section EarlyPaths.

Context {sorter : SortSlice}.
Variable ext : externals.
Variable orcheEngine : orcheImpl.

Lemma RequestService_early req w resp w1 :
  intake ext orcheEngine req w = Done (inl resp) w1 ->
  RequestService ext orcheEngine req w = Done resp w1.
Proof. intros H. unfold RequestService. now rewrite (bind_Done _ _ _ _ _ H). Qed.

Lemma RequestService_scoring req w client cands w1 :
  intake ext orcheEngine req w = Done (inr (client, cands)) w1 ->
  RequestService ext orcheEngine req w
  = rankAndDispatch ext orcheEngine req client cands w1.
Proof. intros H. unfold RequestService. now rewrite (bind_Done _ _ _ _ _ H). Qed.

(** C6: a request received while the engine is not ready is answered
    INTERNAL_SERVER_ERROR with its service name and a zero-valued
    target, and the world it leaves is the world it found: the handle
    counter, the session slots and the trace of collaborator
    invocations are unchanged. *)
Theorem RequestService_not_ready req w :
  Ready orcheEngine = false ->
  RequestService ext orcheEngine req w
  = Done {| Message := INTERNAL_SERVER_ERROR;
            ResponseServiceName := ServiceName req;
            RemoteTargetInfo := TargetInfo_zero |} w.
Proof.
  intros H. apply RequestService_early. unfold intake. now rewrite H.
Qed.

(** C10: the validation loop reads [ExeCmd[0]] of every variant of type
    "native" or "android" without looking at the length: a ready-state
    request in which such a variant has an empty command list, the
    variants before it passing the check, makes [RequestService] panic. *)
Theorem RequestService_empty_command_panics name pre info rest w :
  Ready orcheEngine = true ->
  Forall (allowed ext name) pre ->
  packaged info = true -> ExeCmd info = [] ->
  RequestService ext orcheEngine
    {| ServiceName := name; ServiceInfo := pre ++ info :: rest |} w = Panic.
Proof.
  intros Hr Hpre Hp Hc. unfold RequestService. apply bind_Panic.
  unfold intake. rewrite Hr. cbn [negb ServiceName ServiceInfo].
  apply bind_Panic. rewrite validate_app by assumption.
  now apply validate_empty_command.
Qed.

(** X1: A disallowed command is refused before a handle is claimed and
    before the resolver is asked, provided the loop gets as far as the
    offending variant. *)
Lemma RequestService_not_allowed name pre info rest cmd0 cmds w :
  Ready orcheEngine = true ->
  Forall (allowed ext name) pre ->
  packaged info = true -> ExeCmd info = cmd0 :: cmds ->
  cmd0 <> GetServiceFileName ext name ->
  RequestService ext orcheEngine
    {| ServiceName := name; ServiceInfo := pre ++ info :: rest |} w
  = Done (response NOT_ALLOWED_COMMAND name TargetInfo_zero)
         (logged (lookups name pre ++ [CommandStore name]) w).
Proof.
  intros Hr Hpre Hp Hc Hne. apply RequestService_early.
  unfold intake. rewrite Hr. cbn [negb ServiceName ServiceInfo].
  unfold bind at 1. rewrite validate_app by assumption.
  rewrite (validate_other_command ext name info rest cmd0 cmds _ Hp Hc Hne).
  unfold ret. now rewrite logged_logged.
Qed.

End EarlyPaths.

(** The engine is off: nothing moves. *)
Lemma RequestService_not_ready_witness :
  Ready Scenario.engine_starting = false /\
  @RequestService pdqsort12 Scenario.ext Scenario.engine_starting
     Scenario.container_foo world_init
  = Done {| Message := INTERNAL_SERVER_ERROR;
            ResponseServiceName := "foo";
            RemoteTargetInfo := TargetInfo_zero |} world_init.
Proof.
  split; [reflexivity|].
  apply (@RequestService_not_ready pdqsort12 Scenario.ext
           Scenario.engine_starting Scenario.container_foo world_init).
  reflexivity.
Defined.

Lemma RequestService_empty_command_panics_witness :
  @RequestService quickSort12 Scenario.ext Scenario.engine
    {| ServiceName := "foo";
       ServiceInfo := [] ++ Scenario.no_command :: [] |} world_init = Panic.
Proof.
  apply (@RequestService_empty_command_panics quickSort12 Scenario.ext
           Scenario.engine "foo" [] Scenario.no_command [] world_init).
  - reflexivity.
  - constructor.
  - reflexivity.
  - reflexivity.
Defined.

(** C3, at the input where the code leaves it: a native variant with
    an empty command list stands before the disallowed one, and the
    request ends in a panic, not in NOT_ALLOWED_COMMAND. *)
Theorem RequestService_not_allowed_unreached :
  Ready Scenario.engine = true /\
  packaged Scenario.evil_command = true /\
  hd_error (ExeCmd Scenario.evil_command)
    <> Some (GetServiceFileName Scenario.ext "foo") /\
  @RequestService pdqsort12 Scenario.ext Scenario.engine
    {| ServiceName := "foo";
       ServiceInfo := [Scenario.no_command; Scenario.evil_command] |}
    world_init = Panic.
Proof.
  repeat split; try reflexivity. cbn. intros H. discriminate H.
Qed.

(** ** The score aggregator *)

Section Collector.

Lemma collector_past count index acc scores :
  count <= index ->
  collector count index acc scores = (acc ++ scores, TimedOut).
Proof.
  revert index acc. induction scores as [|s scores IH]; intros index acc Hle;
    cbn [collector].
  - now rewrite app_nil_r.
  - destruct (Nat.eqb_spec count (S index)) as [E|_]; [lia|].
    rewrite IH by lia. now rewrite <- app_assoc.
Qed.

Lemma collector_pending count index acc scores :
  index < count ->
  collector count index acc scores
  = if (count - index <=? length scores)%nat
    then (acc ++ firstn (count - index) scores, AllReported)
    else (acc ++ scores, TimedOut).
Proof.
  revert index acc. induction scores as [|s scores IH]; intros index acc Hlt;
    cbn [collector length].
  - destruct (Nat.leb_spec (count - index) 0) as [H|_]; [lia|].
    now rewrite app_nil_r.
  - destruct (Nat.eqb_spec count (S index)) as [E|N].
    + replace (count - index) with 1 by lia. reflexivity.
    + rewrite IH by lia. rewrite <- !app_assoc. cbn [app].
      replace (count - index) with (S (count - S index)) by lia.
      cbn [firstn]. change (S (count - S index) <=? S (length scores))%nat
        with (count - S index <=? length scores)%nat.
      reflexivity.
Qed.

Lemma nth_error_extract {A : Type} (l : list A) i d :
  nth_error l i = Some d ->
  Permutation (d :: firstn i l ++ skipn (S i) l) l.
Proof.
  revert i. induction l as [|a l IH]; intros [|i] H; cbn in *;
    try discriminate.
  - now injection H as ->.
  - rewrite perm_swap. apply perm_skip. now apply IH.
Qed.

Lemma received_Permutation picks sent : Permutation (received picks sent) sent.
Proof.
  revert sent. induction picks as [|k picks IH]; intros sent;
    cbn [received]; [reflexivity|].
  destruct (nth_error sent (k mod length sent)) as [d|] eqn:E.
  - rewrite IH. now apply nth_error_extract.
  - destruct sent as [|s sent]; [reflexivity|].
    apply nth_error_None in E.
    pose proof (Nat.mod_upper_bound k (length (s :: sent))) as B.
    cbn [length] in *. lia.
Qed.

Lemma received_nil picks : received picks [] = [].
Proof.
  apply Permutation_nil. symmetry. apply received_Permutation.
Qed.

Lemma sends_length reports : length (sends reports) <= length reports.
Proof.
  induction reports as [|[d|] reports IH]; cbn [sends length]; lia.
Qed.

End Collector.

Section Aggregator.

Variable ext : externals.
Variable orcheEngine : orcheImpl.

(** A worker never panics; it invokes at most one collaborator, a
    scoring one, and touches nothing else. *)
Lemma worker_run info localhosts cand w :
  exists r cs,
    worker orcheEngine info localhosts cand w = Done r (logged cs w) /\
    forallb isScoring cs = true.
Proof.
  unfold worker. destruct (Endpoint cand) as [|endpoint0 eps].
  - exists (Some (unscored (Id cand) "")), [].
    unfold ret. now rewrite logged_nil.
  - destruct (isLocalhost (endpoint0 :: eps) localhosts); unfold bind, invoke;
      [destruct (GetScore orcheEngine info)
      |destruct (DoGetScoreRemoteDevice orcheEngine info endpoint0)];
      eexists; eexists; (split; [unfold ret; reflexivity|reflexivity]).
Qed.

Lemma workers_run info localhosts cands w :
  exists reports cs,
    mapM (worker orcheEngine info localhosts) cands w
      = Done reports (logged cs w) /\
    length reports = length cands /\
    forallb isScoring cs = true.
Proof.
  revert w. induction cands as [|cand cands IH]; intros w; cbn [mapM].
  - exists [], []. unfold ret. now rewrite logged_nil.
  - destruct (worker_run info localhosts cand w) as (r & cs & Hw & Hs).
    destruct (IH (logged cs w)) as (rs & cs' & Hm & Hl & Hs').
    exists (r :: rs), (cs ++ cs').
    unfold bind at 1. rewrite Hw. unfold bind at 1. rewrite Hm.
    unfold ret. rewrite logged_logged. cbn [length].
    rewrite forallb_app, Hs, Hs'. auto.
Qed.

Lemma workers_unreachable info localhosts cands w :
  Forall (fun c => Endpoint c = []) cands ->
  mapM (worker orcheEngine info localhosts) cands w
  = Done (map (fun c => Some (unscored (Id c) "")) cands) w.
Proof.
  intros H. induction H as [|cand cands Hc _ IH]; cbn [mapM map];
    [reflexivity|].
  unfold bind at 1. unfold worker at 1. rewrite Hc. unfold ret at 1.
  unfold bind. now rewrite IH.
Qed.

Lemma gatherRound_anonymous msg cands w :
  sysDB_Get ext = Err msg ->
  gatherRound ext orcheEngine cands w = Done ([], None) (logged [SystemDB] w).
Proof. intros H. unfold gatherRound, bind, invoke. now rewrite H. Qed.

Lemma gatherRound_identified info cands w :
  sysDB_Get ext = Ok info ->
  exists reports cs,
    mapM (worker orcheEngine info (fst (GetIPs orcheEngine))) cands
         (logged [SystemDB; Network] w)
    = Done reports (logged cs (logged [SystemDB; Network] w)) /\
    length reports = length cands /\
    forallb isScoring cs = true /\
    gatherRound ext orcheEngine cands w
    = Done (fst (collector (length cands) 0 []
                   (received (arrival ext) (sends reports))),
            Some (snd (collector (length cands) 0 []
                         (received (arrival ext) (sends reports)))))
           (logged ([SystemDB; Network] ++ cs) w).
Proof.
  intros H.
  destruct (workers_run info (fst (GetIPs orcheEngine)) cands
              (logged [SystemDB; Network] w)) as (reports & cs & Hm & Hl & Hs).
  exists reports, cs. repeat split; try assumption.
  unfold gatherRound. unfold bind at 1. unfold invoke at 1. rewrite H.
  unfold bind at 1. unfold invoke at 1. rewrite logged_logged. cbn [app].
  unfold bind at 1. rewrite Hm.
  destruct (collector _ _ _ _) as [ds how]. unfold ret.
  now rewrite logged_logged.
Qed.

Lemma gatherDevicesScore_round cands w :
  gatherDevicesScore ext orcheEngine cands w
  = match gatherRound ext orcheEngine cands w with
    | Done r w' => Done (fst r) w'
    | Panic => Panic
    end.
Proof. reflexivity. Qed.

Lemma scoring_not_Execute cs :
  forallb isScoring cs = true -> existsb isExecute cs = false.
Proof.
  induction cs as [|c cs IH]; cbn; [reflexivity|].
  intros H. apply andb_prop in H as [Hc Hcs].
  rewrite (IH Hcs). now destruct c.
Qed.

(** The aggregator always returns, and it executes nothing. *)
Lemma gatherDevicesScore_returns cands w :
  exists ds cs,
    gatherDevicesScore ext orcheEngine cands w = Done ds (logged cs w) /\
    existsb isExecute cs = false.
Proof.
  rewrite gatherDevicesScore_round.
  destruct (sysDB_Get ext) as [info|msg] eqn:E.
  - destruct (gatherRound_identified info cands w E)
      as (reports & cs & _ & _ & Hs & ->).
    eexists; eexists. split; [reflexivity|].
    cbn [fst app existsb isExecute orb]. now apply scoring_not_Execute.
  - rewrite (gatherRound_anonymous msg cands w E).
    eexists; eexists. split; reflexivity.
Qed.

End Aggregator.

(** ** [RequestService]: what the intake leaves in the trace *)

Section IntakeTrace.

Variable ext : externals.
Variable orcheEngine : orcheImpl.

Lemma validate_trace name infos w r w1 :
  validate ext name infos w = Done r w1 ->
  exists cs, w1 = logged cs w /\ existsb isExecute cs = false
             /\ existsb isResolver cs = false.
Proof.
  revert w. induction infos as [|info infos IH]; intros w; cbn [validate].
  - unfold ret. intros [= <- <-]. exists []. now rewrite logged_nil.
  - destruct (_ || _); [|apply IH].
    destruct (ExeCmd info) as [|cmd0 cmds]; [discriminate|].
    unfold bind, invoke.
    destruct (negb _).
    + unfold ret. intros [= <- <-]. now exists [CommandStore name].
    + intros H. apply IH in H as (cs & -> & He & Hr).
      exists (CommandStore name :: cs). rewrite logged_logged.
      repeat split; assumption.
Qed.

Lemma intake_trace req w r w1 :
  intake ext orcheEngine req w = Done r w1 ->
  exists cs, calls w1 = calls w ++ cs /\ existsb isExecute cs = false.
Proof.
  unfold intake. destruct (negb (Ready orcheEngine)).
  - unfold ret. intros [= <- <-]. exists []. now rewrite app_nil_r.
  - intros H. apply bind_inv in H as (rej & wv & Hv & H).
    apply validate_trace in Hv as (cs & -> & He & _).
    destruct rej as [resp|].
    + unfold ret in H. injection H as <- <-. now exists cs.
    + unfold bind at 1 in H. cbn in H.
      unfold addServiceClient, bind in H. cbn in H.
      destruct (_ && _); [|discriminate].
      cbn in H.
      exists (cs ++ [ListenNotify (Z.to_nat (wrap32 (orchClientID w + 1)));
                     Resolver (ServiceName req)
                       (map ExecutionType (ServiceInfo req))]).
      rewrite existsb_app, He. split; [|reflexivity].
      destruct (GetDeviceInfoWithService _ _ _); unfold ret in H;
        injection H as <- <-; cbn; now rewrite <- !app_assoc.
Qed.

End IntakeTrace.

(** ** [RequestService]: ranking, matching, dispatch *)

Section Ranking.

Context {sorter : SortSlice}.
Variable ext : externals.
Variable orcheEngine : orcheImpl.

Lemma sortByScore_nil : sortByScore [] = [].
Proof.
  apply Permutation_nil. apply sort_Slice_Permutation.
Qed.

Lemma sortByScore_one d : sortByScore [d] = [d].
Proof.
  apply Permutation_length_1_inv. apply sort_Slice_Permutation.
Qed.

(** C4: when the ranked list is empty, or its first entry carries the
    invalid-score sentinel, the response is SERVICE_NOT_FOUND with a
    zero-valued target, and the request has executed nothing. *)
Theorem RequestService_service_not_found req w client cands w1 gathered w2 :
  intake ext orcheEngine req w = Done (inr (client, cands)) w1 ->
  gatherDevicesScore ext orcheEngine cands w1 = Done gathered w2 ->
  (sortByScore gathered = [] \/
   exists first rest,
     sortByScore gathered = first :: rest /\
     eq (score first) (INVALID_SCORE ext) = true) ->
  RequestService ext orcheEngine req w
  = Done {| Message := SERVICE_NOT_FOUND;
            ResponseServiceName := ServiceName req;
            RemoteTargetInfo := TargetInfo_zero |} w2
  /\ exists cs, calls w2 = calls w ++ cs /\ existsb isExecute cs = false.
Proof.
  intros Hi Hg Hrank. split.
  - rewrite (RequestService_scoring _ _ _ _ _ _ _ Hi).
    unfold rankAndDispatch. rewrite (bind_Done _ _ _ _ _ Hg).
    destruct Hrank as [-> | (first & rest & -> & ->)]; reflexivity.
  - apply intake_trace in Hi as (cs1 & Hc1 & He1).
    destruct (gatherDevicesScore_returns ext orcheEngine cands w1)
      as (ds & cs2 & Hg' & He2).
    rewrite Hg in Hg'. injection Hg' as _ ->.
    exists (cs1 ++ cs2). cbn [logged calls]. rewrite Hc1, <- app_assoc.
    split; [reflexivity|]. now rewrite existsb_app, He1, He2.
Qed.

(** C5: the matcher returns the command line of the first variant, in
    the order of the request, whose type is the target; with no such
    variant it fails with "Not Found"; and [RequestService] answers the
    matcher's message as its result code, with a zero-valued target. *)
Theorem getExecCmds_first_match :
  (forall target before variant after,
      Forall (fun info => ExecutionType info <> target) before ->
      ExecutionType variant = target ->
      getExecCmds target (before ++ variant :: after) = Ok (ExeCmd variant))
  /\ (forall target infos,
      Forall (fun info => ExecutionType info <> target) infos ->
      getExecCmds target infos = Err "Not Found")
  /\ (forall req w client cands w1 gathered w2 first rest msg,
      intake ext orcheEngine req w = Done (inr (client, cands)) w1 ->
      gatherDevicesScore ext orcheEngine cands w1 = Done gathered w2 ->
      sortByScore gathered = first :: rest ->
      eq (score first) (INVALID_SCORE ext) = false ->
      getExecCmds (execType first) (ServiceInfo req) = Err msg ->
      RequestService ext orcheEngine req w
      = Done {| Message := msg;
                ResponseServiceName := ServiceName req;
                RemoteTargetInfo := TargetInfo_zero |} w2).
Proof.
  split; [|split].
  - intros target before variant after Hb Hv.
    induction Hb as [|info before Hne _ IH]; cbn [app getExecCmds].
    + rewrite Hv, String.eqb_refl. reflexivity.
    + destruct (String.eqb_spec target (ExecutionType info)) as [E|_];
        [now symmetry in E|exact IH].
  - intros target infos H.
    induction H as [|info infos Hne _ IH]; cbn [getExecCmds]; [reflexivity|].
    destruct (String.eqb_spec target (ExecutionType info)) as [E|_];
      [now symmetry in E|exact IH].
  - intros req w client cands w1 gathered w2 first rest msg Hi Hg Hs Hv Hm.
    rewrite (RequestService_scoring _ _ _ _ _ _ _ Hi).
    unfold rankAndDispatch. rewrite (bind_Done _ _ _ _ _ Hg).
    now rewrite Hs, Hv, Hm.
Qed.

(** C7: when the host's own identity cannot be read from the system
    store, the aggregator returns the empty list having invoked that
    store and nothing else (no address lookup, no scoring call), and
    the request ends in SERVICE_NOT_FOUND with a zero-valued target. *)
Theorem gatherDevicesScore_without_identity msg :
  sysDB_Get ext = Err msg ->
  (forall cands w,
      gatherDevicesScore ext orcheEngine cands w
      = Done [] (logged [SystemDB] w))
  /\ (forall req w client cands w1,
      intake ext orcheEngine req w = Done (inr (client, cands)) w1 ->
      RequestService ext orcheEngine req w
      = Done {| Message := SERVICE_NOT_FOUND;
                ResponseServiceName := ServiceName req;
                RemoteTargetInfo := TargetInfo_zero |}
             (logged [SystemDB] w1)).
Proof.
  intros H.
  assert (G : forall cands w,
             gatherDevicesScore ext orcheEngine cands w
             = Done [] (logged [SystemDB] w)).
  { intros cands w. rewrite gatherDevicesScore_round.
    now rewrite (gatherRound_anonymous ext orcheEngine msg cands w H). }
  split; [exact G|].
  intros req w client cands w1 Hi.
  rewrite (RequestService_scoring _ _ _ _ _ _ _ Hi).
  unfold rankAndDispatch. rewrite (bind_Done _ _ _ _ _ (G cands w1)).
  now rewrite sortByScore_nil.
Qed.

End Ranking.

(** ** The scoring round *)

Section Round.

Variable ext : externals.
Variable orcheEngine : orcheImpl.

Lemma sends_map_Some {C : Type} (f : C -> deviceScore) (l : list C) :
  sends (map (fun c => Some (f c)) l) = map f l.
Proof. induction l as [|c l IH]; cbn [map sends]; [reflexivity|now f_equal]. Qed.

(** X3: With the identity known, the round returns the first [N] scores
    that arrive before the timer fires, [N] the number of candidates;
    the collector leaves through its completion test exactly when
    [N >= 1] of them have arrived, and on the timeout signal otherwise. *)
Lemma gatherRound_collects info cands w :
  sysDB_Get ext = Ok info ->
  exists reports cs,
    mapM (worker orcheEngine info (fst (GetIPs orcheEngine))) cands
         (logged [SystemDB; Network] w)
    = Done reports (logged cs (logged [SystemDB; Network] w)) /\
    length reports = length cands /\
    gatherRound ext orcheEngine cands w
    = Done (firstn (length cands) (received (arrival ext) (sends reports)),
            Some (if ((0 <? length cands)
                      && (length cands <=? length (sends reports)))%nat
                  then AllReported else TimedOut))
           (logged ([SystemDB; Network] ++ cs) w).
Proof.
  intros H.
  destruct (gatherRound_identified ext orcheEngine info cands w H)
    as (reports & cs & Hm & Hl & _ & ->).
  exists reports, cs. split; [assumption|]. split; [assumption|].
  set (arrived := received (arrival ext) (sends reports)).
  assert (La : length arrived = length (sends reports))
    by apply Permutation_length, received_Permutation.
  destruct (length cands) as [|n] eqn:En.
  - rewrite collector_past by lia. cbn [app fst snd firstn andb Nat.ltb Nat.leb].
    pose proof (sends_length reports) as B.
    destruct arrived; [reflexivity|cbn [length] in La; lia].
  - rewrite collector_pending by lia. rewrite Nat.sub_0_r, La.
    change (0 <? S n)%nat with true. cbn [andb].
    destruct (S n <=? length (sends reports))%nat eqn:L.
    + reflexivity.
    + apply Nat.leb_gt in L. cbn [fst snd app].
      now rewrite firstn_all2 by lia.
Qed.

Lemma collector_length count scores :
  length scores <= count ->
  length (fst (collector count 0 [] scores)) <= count.
Proof.
  intros H. destruct count as [|n].
  - rewrite collector_past by lia. cbn. lia.
  - rewrite collector_pending by lia.
    destruct (_ <=? _)%nat; cbn [fst app]; [|assumption].
    rewrite length_firstn. lia.
Qed.

(** X2: The collected list is never longer than the candidate list. *)
Lemma gatherDevicesScore_length cands w :
  exists ds w',
    gatherDevicesScore ext orcheEngine cands w = Done ds w' /\
    length ds <= length cands.
Proof.
  rewrite gatherDevicesScore_round.
  destruct (sysDB_Get ext) as [info|msg] eqn:E.
  - destruct (gatherRound_identified ext orcheEngine info cands w E)
      as (reports & cs & _ & Hl & _ & ->).
    eexists; eexists. split; [reflexivity|]. cbn [fst].
    apply collector_length.
    rewrite (Permutation_length (received_Permutation _ _)), <- Hl.
    apply sends_length.
  - rewrite (gatherRound_anonymous ext orcheEngine msg cands w E).
    eexists; eexists. split; [reflexivity|]. cbn. lia.
Qed.

(** C8, at the input where the code leaves it: with no candidate at
    all, every candidate has reported from the start, yet the collector
    leaves its loop only on the timeout signal. *)
Theorem gatherRound_no_candidates_waits info w :
  sysDB_Get ext = Ok info ->
  gatherRound ext orcheEngine [] w
  = Done ([], Some TimedOut) (logged [SystemDB; Network] w).
Proof.
  intros H. unfold gatherRound. unfold bind at 1. unfold invoke at 1.
  rewrite H. unfold bind at 1. unfold invoke at 1. rewrite logged_logged.
  cbn [mapM bind ret sends length]. now rewrite received_nil.
Qed.

(** C9: the worker of a candidate without endpoint sends, at once and
    without invoking a collaborator, a score of 0 under the candidate's
    id with an empty endpoint; the collector counts it like any other,
    so a round all of whose candidates are of this kind ends through the
    completion test with one such score per candidate, not on the
    timeout. *)
Theorem unreachable_candidates_complete_round info localhosts cand :
  Endpoint cand = [] ->
  (forall w,
      worker orcheEngine info localhosts cand w
      = Done (Some {| id := Id cand; endpoint := ""; score := zero;
                      execType := "" |}) w)
  /\ (forall cands w,
      In cand cands ->
      Forall (fun c => Endpoint c = []) cands ->
      sysDB_Get ext = Ok info ->
      exists ds,
        gatherRound ext orcheEngine cands w
        = Done (ds, Some AllReported) (logged [SystemDB; Network] w)
        /\ Permutation ds
             (map (fun c => {| id := Id c; endpoint := ""; score := zero;
                               execType := "" |}) cands)).
Proof.
  intros Hc. split.
  - intros w. unfold worker. now rewrite Hc.
  - intros cands w Hin Hall Hid.
    set (zeros := map (fun c => unscored (Id c) "") cands).
    exists (received (arrival ext) zeros).
    split; [|apply received_Permutation].
    unfold gatherRound. unfold bind at 1. unfold invoke at 1. rewrite Hid.
    unfold bind at 1. unfold invoke at 1. rewrite logged_logged. cbn [app].
    unfold bind at 1. rewrite workers_unreachable by assumption.
    rewrite sends_map_Some. fold zeros.
    assert (L : length (received (arrival ext) zeros) = length cands).
    { rewrite (Permutation_length (received_Permutation _ _)).
      apply length_map. }
    assert (0 < length cands) by (destruct cands; [contradiction|cbn; lia]).
    rewrite collector_pending by assumption.
    rewrite Nat.sub_0_r, L, Nat.leb_refl, <- L, firstn_all.
    reflexivity.
Qed.

End Round.

(** ** A sole remote candidate whose scoring call fails *)

Section ScoringError.

Context {sorter : SortSlice}.
Variable ext : externals.
Variable orcheEngine : orcheImpl.

Lemma received_one picks (d : deviceScore) : received picks [d] = [d].
Proof.
  apply Permutation_length_1_inv. symmetry. apply received_Permutation.
Qed.

(** C2, as the code has it: in a round that takes place (the host's
    identity is known), the score collected for a sole remote candidate
    whose scoring call returns an error before the round's timer fires
    ([Failed], not [Late]) is 0 under the candidate's id and first
    endpoint, with no execution type; when the sentinel is not 0 the
    request passes the sentinel check and the matcher is asked for the
    empty execution type, so the service is executed on that endpoint
    only if the request has a variant of the empty type, and the answer
    is "Not Found" otherwise; under these conditions it is never
    SERVICE_NOT_FOUND. *)
Theorem RequestService_scoring_error
    req w client cand w1 info endpoint0 others msg :
  intake ext orcheEngine req w = Done (inr (client, [cand])) w1 ->
  sysDB_Get ext = Ok info ->
  Endpoint cand = endpoint0 :: others ->
  isLocalhost (Endpoint cand) (fst (GetIPs orcheEngine)) = false ->
  DoGetScoreRemoteDevice orcheEngine info endpoint0 = Failed msg ->
  eq zero (INVALID_SCORE ext) = false ->
  let w2 := logged [SystemDB; Network; RemoteScoring info endpoint0] w1 in
  gatherDevicesScore ext orcheEngine [cand] w1
  = Done [{| id := Id cand; endpoint := endpoint0; score := zero;
             execType := "" |}] w2
  /\ RequestService ext orcheEngine req w
     = match getExecCmds "" (ServiceInfo req) with
       | Ok args =>
           Done {| Message := ERROR_NONE;
                   ResponseServiceName := ServiceName req;
                   RemoteTargetInfo :=
                     {| TargetExecutionType := ""; Target := endpoint0 |} |}
                (logged [Execute endpoint0 (ServiceName req) args
                           (notiChan (nth client (orcheClients w1)
                                          orcheClient_zero))] w2)
       | Err _ =>
           Done {| Message := "Not Found";
                   ResponseServiceName := ServiceName req;
                   RemoteTargetInfo := TargetInfo_zero |} w2
       end.
Proof.
  intros Hi Hid He Hremote Hfail Hsentinel w2.
  assert (G : gatherDevicesScore ext orcheEngine [cand] w1
              = Done [unscored (Id cand) endpoint0] w2).
  { rewrite gatherDevicesScore_round. unfold gatherRound.
    unfold bind at 1. unfold invoke at 1. rewrite Hid.
    unfold bind at 1. unfold invoke at 1. rewrite logged_logged.
    cbn [app mapM]. unfold worker. rewrite He. rewrite <- He, Hremote.
    unfold bind at 1. unfold bind at 1. unfold bind at 1.
    unfold invoke at 1. rewrite Hfail, logged_logged.
    cbn [app bind ret sends length]. rewrite received_one.
    reflexivity. }
  split; [exact G|].
  rewrite (RequestService_scoring _ _ _ _ _ _ _ Hi).
  unfold rankAndDispatch. rewrite (bind_Done _ _ _ _ _ G).
  rewrite sortByScore_one. cbn [unscored score execType endpoint].
  rewrite Hsentinel.
  assert (N : forall t infos m, getExecCmds t infos = Err m -> m = "Not Found").
  { intros t infos m. induction infos as [|i infos IH]; cbn [getExecCmds].
    - now intros [= <-].
    - destruct (String.eqb _ _); [discriminate|exact IH]. }
  destruct (getExecCmds "" (ServiceInfo req)) as [args|m] eqn:E.
  - reflexivity.
  - now rewrite (N _ _ _ E).
Qed.

End ScoringError.

(** ** The statements above at concrete inputs *)

(** Sentinel 0: the failed scoring call leaves score 0 on top. *)
Lemma RequestService_service_not_found_witness :
  @RequestService pdqsort12 Scenario.ext_zero_sentinel Scenario.engine
     Scenario.container_foo world_init
  = Done {| Message := SERVICE_NOT_FOUND;
            ResponseServiceName := "foo";
            RemoteTargetInfo := TargetInfo_zero |} Scenario.after_round.
Proof.
  eapply proj1.
  apply (@RequestService_service_not_found pdqsort12
           Scenario.ext_zero_sentinel Scenario.engine
           Scenario.container_foo world_init 0 [Scenario.remote1]
           Scenario.after_intake [unscored "dev1" "10.0.0.2"]
           Scenario.after_round).
  - vm_compute. reflexivity.
  - vm_compute. reflexivity.
  - right. exists (unscored "dev1" "10.0.0.2"), [].
    split; vm_compute; reflexivity.
Defined.

Lemma getExecCmds_first_match_witness :
  getExecCmds "container"
    ([Scenario.no_command]
       ++ {| ExecutionType := "container"; ExeCmd := ["run"; "foo"] |}
       :: [{| ExecutionType := "container"; ExeCmd := ["other"] |}])
  = Ok ["run"; "foo"]
  /\ getExecCmds "container" [Scenario.no_command; Scenario.evil_command]
     = Err "Not Found"
  /\ @RequestService pdqsort12 Scenario.ext Scenario.engine
        Scenario.container_foo world_init
     = Done {| Message := "Not Found";
               ResponseServiceName := "foo";
               RemoteTargetInfo := TargetInfo_zero |} Scenario.after_round.
Proof.
  destruct (@getExecCmds_first_match pdqsort12 Scenario.ext Scenario.engine)
    as (Hfirst & Hnone & Hsurface).
  split; [|split].
  - apply (Hfirst "container" [Scenario.no_command]
             {| ExecutionType := "container"; ExeCmd := ["run"; "foo"] |}).
    + repeat constructor. discriminate.
    + reflexivity.
  - apply Hnone. repeat constructor; discriminate.
  - apply (Hsurface Scenario.container_foo world_init 0 [Scenario.remote1]
             Scenario.after_intake [unscored "dev1" "10.0.0.2"]
             Scenario.after_round (unscored "dev1" "10.0.0.2") []);
      vm_compute; reflexivity.
Defined.

Lemma gatherDevicesScore_without_identity_witness :
  gatherDevicesScore Scenario.ext_anonymous Scenario.engine
    [Scenario.remote1] world_init
  = Done [] (logged [SystemDB] world_init)
  /\ @RequestService pdqsort12 Scenario.ext_anonymous Scenario.engine
        Scenario.container_foo world_init
     = Done {| Message := SERVICE_NOT_FOUND;
               ResponseServiceName := "foo";
               RemoteTargetInfo := TargetInfo_zero |}
            (logged [SystemDB] Scenario.after_intake).
Proof.
  destruct (@gatherDevicesScore_without_identity pdqsort12
              Scenario.ext_anonymous Scenario.engine "no id" eq_refl)
    as (Hgather & Hrequest).
  split.
  - apply Hgather.
  - apply (Hrequest Scenario.container_foo world_init 0 [Scenario.remote1]).
    vm_compute. reflexivity.
Defined.

Lemma gatherRound_no_candidates_waits_witness :
  gatherRound Scenario.ext Scenario.engine [] world_init
  = Done ([], Some TimedOut) (logged [SystemDB; Network] world_init).
Proof.
  apply (gatherRound_no_candidates_waits Scenario.ext Scenario.engine "me").
  reflexivity.
Defined.

Lemma unreachable_candidates_complete_round_witness :
  exists ds,
    gatherRound Scenario.ext Scenario.engine
      [Scenario.placeholder "p1"; Scenario.placeholder "p2"] world_init
    = Done (ds, Some AllReported) (logged [SystemDB; Network] world_init)
    /\ Permutation ds [unscored "p1" ""; unscored "p2" ""].
Proof.
  destruct (unreachable_candidates_complete_round Scenario.ext Scenario.engine
              "me" ["10.0.0.1"] (Scenario.placeholder "p1") eq_refl)
    as (_ & Hround).
  apply (Hround [Scenario.placeholder "p1"; Scenario.placeholder "p2"]).
  - left. reflexivity.
  - repeat constructor.
  - reflexivity.
Defined.

Lemma RequestService_scoring_error_witness :
  @RequestService pdqsort12 Scenario.ext Scenario.engine
     Scenario.container_foo world_init
  = Done {| Message := "Not Found";
            ResponseServiceName := "foo";
            RemoteTargetInfo := TargetInfo_zero |} Scenario.after_round.
Proof.
  apply (proj2 (@RequestService_scoring_error pdqsort12 Scenario.ext
                  Scenario.engine Scenario.container_foo world_init 0
                  Scenario.remote1 Scenario.after_intake "me" "10.0.0.2" []
                  "unreachable" eq_refl eq_refl eq_refl eq_refl eq_refl
                  eq_refl)).
Defined.

(** C2 as stated fails here: one remote candidate, its scoring call
    fails, the sentinel is -1; the request passes the sentinel check,
    yet nothing is executed: the collected score carries no execution
    type and the request has no variant of the empty type.  And when
    the call returns only after the round's timer has fired, nothing is
    collected and the request does end in SERVICE_NOT_FOUND. *)
Lemma RequestService_scoring_error_not_dispatched :
  intake Scenario.ext Scenario.engine Scenario.container_foo world_init
  = Done (inr (0, [Scenario.remote1])) Scenario.after_intake
  /\ isLocalhost (Endpoint Scenario.remote1) (fst (GetIPs Scenario.engine))
     = false
  /\ DoGetScoreRemoteDevice Scenario.engine "me" "10.0.0.2"
     = Failed "unreachable"
  /\ eq zero (INVALID_SCORE Scenario.ext) = false
  /\ @RequestService pdqsort12 Scenario.ext Scenario.engine
       Scenario.container_foo world_init
     = Done {| Message := "Not Found";
               ResponseServiceName := "foo";
               RemoteTargetInfo := TargetInfo_zero |} Scenario.after_round
  /\ existsb isExecute (calls Scenario.after_round) = false
  /\ DoGetScoreRemoteDevice Scenario.engine_late "me" "10.0.0.2" = Late
  /\ @RequestService pdqsort12 Scenario.ext Scenario.engine_late
       Scenario.container_foo world_init
     = Done {| Message := SERVICE_NOT_FOUND;
               ResponseServiceName := "foo";
               RemoteTargetInfo := TargetInfo_zero |} Scenario.after_round.
Proof.
  repeat split; vm_compute; reflexivity.
Qed.

(** ** Ranking *)

(** The score is a number (not NaN). *)
Definition numeric (d : deviceScore) : Prop := number (score d).

(** Every entry's score is at least the score of every later entry. *)
Definition descending (l : list deviceScore) : Prop :=
  StronglySorted (fun a b => ge (score a) (score b) = true) l.

Definition same_score (a b : deviceScore) : bool := eq (score a) (score b).

(** Entries of equal score stand in [after] in the order they have in
    [before]. *)
Definition ties_kept (before after : list deviceScore) : Prop :=
  forall d, filter (same_score d) after = filter (same_score d) before.

(** Seven scores in arrival order, "g" the best and the others tied;
    and three of which one is NaN. *)
Module Ranked.

Definition entry (name : string) (s : float64) : deviceScore :=
  {| id := name; endpoint := name; score := s; execType := "container" |}.

Definition seven : list deviceScore :=
  [entry "a" 1; entry "b" 1; entry "c" 1; entry "d" 1; entry "e" 1;
   entry "f" 1; entry "g" 2]%float.

Definition with_nan : list deviceScore :=
  [entry "a" 1; entry "n" nan; entry "b" 2]%float.

End Ranked.

Section RankingOrder.

Lemma lex_lt_irrefl k : ~ lex_lt k k.
Proof. destruct k as [[a b] c]. unfold lex_lt. lia. Qed.

Lemma lex_lt_trans k1 k2 k3 : lex_lt k1 k2 -> lex_lt k2 k3 -> lex_lt k1 k3.
Proof.
  destruct k1 as [[a1 b1] c1], k2 as [[a2 b2] c2], k3 as [[a3 b3] c3].
  unfold lex_lt. lia.
Qed.

Lemma lex_lt_incomparable k1 k2 k3 :
  ~ lex_lt k1 k2 -> ~ lex_lt k2 k3 -> ~ lex_lt k1 k3.
Proof.
  destruct k1 as [[a1 b1] c1], k2 as [[a2 b2] c2], k3 as [[a3 b3] c3].
  unfold lex_lt. lia.
Qed.

Lemma lex_lt_antisym k1 k2 : ~ lex_lt k1 k2 -> ~ lex_lt k2 k1 -> k1 = k2.
Proof.
  destruct k1 as [[a1 b1] c1], k2 as [[a2 b2] c2]. unfold lex_lt.
  intros H1 H2. repeat f_equal; lia.
Qed.

Lemma gt_false_key x y :
  number x -> number y -> (gt x y = false <-> ~ lex_lt (key y) (key x)).
Proof.
  intros Hx Hy. rewrite <- (gt_key x y Hx Hy).
  destruct (gt x y); split; congruence.
Qed.

Lemma score_ordering :
  ordering_on numeric (fun di dj => gt (score di) (score dj)).
Proof.
  unfold numeric. constructor.
  - intros x Hx. apply gt_false_key; auto. apply lex_lt_irrefl.
  - intros x y z Hx Hy Hz Hxy Hyz.
    apply gt_key in Hxy, Hyz; auto. apply gt_key; auto.
    eapply lex_lt_trans; eassumption.
  - intros x y z Hx Hy Hz Hxy Hyz.
    apply gt_false_key in Hxy, Hyz; auto. apply gt_false_key; auto.
    eapply lex_lt_incomparable; eassumption.
Qed.

Lemma StronglySorted_map_on {A B : Type} (P : A -> Prop)
    (R : A -> A -> Prop) (R' : B -> B -> Prop) (f : A -> B) l :
  (forall a b, P a -> P b -> R a b -> R' (f a) (f b)) ->
  Forall P l -> StronglySorted R l -> StronglySorted R' (map f l).
Proof.
  intros Himp HP HS. induction HS as [|a l HS IH Ha]; cbn [map];
    [constructor|].
  inversion HP as [|? ? Pa Pl]; subst.
  constructor; [now apply IH|].
  rewrite Forall_forall in Ha, Pl |- *.
  intros b Hb. apply in_map_iff in Hb as (x & <- & Hx). auto.
Qed.

Lemma StronglySorted_Permutation_eq {K : Type} (R : K -> K -> Prop) :
  (forall a b, R a b -> R b a -> a = b) ->
  forall l1 l2,
    StronglySorted R l1 -> StronglySorted R l2 -> Permutation l1 l2 ->
    l1 = l2.
Proof.
  intros Hanti l1. induction l1 as [|a l1 IH]; intros l2 H1 H2 HP.
  - now apply Permutation_nil in HP.
  - destruct l2 as [|b l2];
      [apply Permutation_sym, Permutation_nil in HP; discriminate|].
    inversion H1 as [|? ? S1 F1]; inversion H2 as [|? ? S2 F2]; subst.
    assert (E : a = b).
    { assert (Ia : In a (b :: l2))
        by (apply (Permutation_in a HP); now left).
      assert (Ib : In b (a :: l1))
        by (apply (Permutation_in b (Permutation_sym HP)); now left).
      destruct Ia as [Ia|Ia]; [now symmetry|].
      destruct Ib as [Ib|Ib]; [assumption|].
      rewrite Forall_forall in F1, F2. apply Hanti; auto. }
    subst b. f_equal. apply IH; try assumption.
    now apply Permutation_cons_inv in HP.
Qed.

Lemma same_keys_same_scores l2 l1 :
  Forall numeric l2 -> Forall numeric l1 ->
  map (fun d => key (score d)) l2 = map (fun d => key (score d)) l1 ->
  Forall2 (fun a b => same_score a b = true) l2 l1.
Proof.
  intros H2. revert l1. induction H2 as [|a l2 Na _ IH]; intros l1 H1 E;
    destruct l1 as [|b l1]; try discriminate; [constructor|].
  inversion H1 as [|? ? Nb N1]; subst. cbn [map] in E.
  injection E as Ek Et. constructor; [|now apply IH].
  unfold same_score. now apply eq_key.
Qed.

End RankingOrder.

Section RankingSorted.

Context {sorter : SortSlice}.

Lemma sortByScore_numeric l : Forall numeric l -> Forall numeric (sortByScore l).
Proof.
  apply Permutation_Forall. apply sort_Slice_Permutation.
Qed.

Lemma sortByScore_descending l : Forall numeric l -> descending (sortByScore l).
Proof.
  intros Hn. unfold descending.
  rewrite <- (map_id (sortByScore l)).
  apply (StronglySorted_map_on numeric
           (not_after (fun di dj => gt (score di) (score dj)))).
  - unfold not_after, numeric. intros a b Na Nb H.
    apply ge_key; auto. now apply gt_false_key in H.
  - now apply sortByScore_numeric.
  - apply (sort_Slice_sorted _ numeric); [apply score_ordering|assumption].
Qed.

Lemma descending_keys l :
  Forall numeric l -> descending l ->
  StronglySorted (fun k1 k2 => ~ lex_lt k1 k2)
    (map (fun d => key (score d)) l).
Proof.
  intros Hn Hd. apply (StronglySorted_map_on numeric
                         (fun a b => ge (score a) (score b) = true));
    try assumption.
  unfold numeric. intros a b Na Nb H. now apply ge_key in H.
Qed.

(** C1, as the code has it: over scores that are numbers,
    [sortByScore] returns a permutation of the collected list in which
    no entry stands before one of greater score, and sorting again
    leaves every position with an equal score.  The order among entries
    of equal score is the library's choice. *)
Theorem sortByScore_sorted_permutation l :
  Forall numeric l ->
  Permutation l (sortByScore l)
  /\ descending (sortByScore l)
  /\ Forall2 (fun a b => same_score a b = true)
       (sortByScore (sortByScore l)) (sortByScore l).
Proof.
  intros Hn.
  pose proof (sortByScore_numeric l Hn) as Hn1.
  pose proof (sortByScore_numeric _ Hn1) as Hn2.
  split; [apply sort_Slice_Permutation|].
  split; [now apply sortByScore_descending|].
  apply same_keys_same_scores; try assumption.
  apply (StronglySorted_Permutation_eq (fun k1 k2 => ~ lex_lt k1 k2)).
  - intros a b Hab Hba. now apply lex_lt_antisym.
  - apply descending_keys; [assumption|now apply sortByScore_descending].
  - apply descending_keys; [assumption|now apply sortByScore_descending].
  - apply Permutation_map, Permutation_sym, sort_Slice_Permutation.
Qed.

End RankingSorted.

Lemma sortByScore_sorted_permutation_witness :
  Permutation Ranked.seven (@sortByScore quickSort12 Ranked.seven)
  /\ descending (@sortByScore quickSort12 Ranked.seven)
  /\ Forall2 (fun a b => same_score a b = true)
       (@sortByScore quickSort12 (@sortByScore quickSort12 Ranked.seven))
       (@sortByScore quickSort12 Ranked.seven).
Proof.
  apply (@sortByScore_sorted_permutation quickSort12 Ranked.seven).
  repeat constructor; vm_compute; reflexivity.
Defined.

(** The order of ties is the library's: on the seven scores the two
    small-slice paths disagree. *)
Lemma sortByScore_ties_vary :
  map id (@sortByScore pdqsort12 Ranked.seven)
  = ["g"; "a"; "b"; "c"; "d"; "e"; "f"]
  /\ map id (@sortByScore quickSort12 Ranked.seven)
     = ["g"; "b"; "c"; "d"; "e"; "f"; "a"].
Proof. split; vm_compute; reflexivity. Qed.

(** C1 as stated fails twice.  With quickSort's small-slice path the
    seven scores come out as g, b, c, d, e, f, a: "a", first to arrive
    among the six of score 1, is ranked last of them.  And with a NaN
    score in the list the result is not in descending order: 1 stays
    before 2. *)
Lemma sortByScore_not_stable :
  map id (@sortByScore quickSort12 Ranked.seven)
  = ["g"; "b"; "c"; "d"; "e"; "f"; "a"]
  /\ ~ ties_kept Ranked.seven (@sortByScore quickSort12 Ranked.seven)
  /\ map id (@sortByScore pdqsort12 Ranked.with_nan) = ["a"; "n"; "b"]
  /\ ~ descending (@sortByScore pdqsort12 Ranked.with_nan)
  /\ ~ descending (@sortByScore quickSort12 Ranked.with_nan).
Proof.
  split; [vm_compute; reflexivity|].
  split.
  { intros H. specialize (H (Ranked.entry "a" 1%float)).
    vm_compute in H. discriminate H. }
  split; [vm_compute; reflexivity|].
  split; intros H; vm_compute in H;
    inversion H as [|? ? _ F]; subst;
    inversion F as [|? ? _ F']; subst;
    inversion F' as [|? ? G _]; subst;
    vm_compute in G; discriminate G.
Qed.

(** ** The successful path and the general forms *)

Section Dispatch.

Context {sorter : SortSlice}.
Variable ext : externals.
Variable orcheEngine : orcheImpl.

(** X4: When the best score is not the sentinel and the request has a
    variant of the winner's execution type, the backend is invoked once,
    on the winner's endpoint with the matched command line and the
    session's channel, and the response names the winner. *)
Lemma RequestService_dispatches
    req w client cands w1 gathered w2 first rest cmd :
  intake ext orcheEngine req w = Done (inr (client, cands)) w1 ->
  gatherDevicesScore ext orcheEngine cands w1 = Done gathered w2 ->
  sortByScore gathered = first :: rest ->
  eq (score first) (INVALID_SCORE ext) = false ->
  getExecCmds (execType first) (ServiceInfo req) = Ok cmd ->
  RequestService ext orcheEngine req w
  = Done {| Message := ERROR_NONE;
            ResponseServiceName := ServiceName req;
            RemoteTargetInfo :=
              {| TargetExecutionType := execType first;
                 Target := endpoint first |} |}
         (logged [Execute (endpoint first) (ServiceName req) cmd
                    (notiChan (nth client (orcheClients w2)
                                   orcheClient_zero))] w2).
Proof.
  intros Hi Hg Hs Hv Hm.
  rewrite (RequestService_scoring _ _ _ _ _ _ _ Hi).
  unfold rankAndDispatch. rewrite (bind_Done _ _ _ _ _ Hg).
  now rewrite Hs, Hv, Hm.
Qed.

End Dispatch.

Lemma RequestService_dispatches_witness :
  exists w3,
    @RequestService quickSort12 Scenario.ext_native Scenario.engine_scoring
       Scenario.native_foo world_init
    = Done {| Message := ERROR_NONE;
              ResponseServiceName := "foo";
              RemoteTargetInfo :=
                {| TargetExecutionType := "native";
                   Target := "10.0.0.1" |} |} w3
    /\ filter isExecute (calls w3)
       = [Execute "10.0.0.1" "foo" ["/bin/foo"; "-v"] (Some 0)].
Proof.
  eexists. split.
  - apply (@RequestService_dispatches quickSort12 Scenario.ext_native
             Scenario.engine_scoring Scenario.native_foo world_init 0
             [Scenario.local_native; Scenario.remote_native]
             (Scenario.claimed [CommandStore "foo"; ListenNotify 0;
                                Resolver "foo" ["native"]])
             [{| id := "dev2"; endpoint := "10.0.0.3"; score := 0.5%float;
                 execType := "native" |};
              {| id := "dev0"; endpoint := "10.0.0.1"; score := 0.75%float;
                 execType := "native" |}]
             (Scenario.claimed [CommandStore "foo"; ListenNotify 0;
                                Resolver "foo" ["native"]; SystemDB; Network;
                                LocalScoring "me";
                                RemoteScoring "me" "10.0.0.3"])
             {| id := "dev0"; endpoint := "10.0.0.1"; score := 0.75%float;
                execType := "native" |}
             [{| id := "dev2"; endpoint := "10.0.0.3"; score := 0.5%float;
                 execType := "native" |}]
             ["/bin/foo"; "-v"]);
      vm_compute; reflexivity.
  - vm_compute. reflexivity.
Defined.

Lemma RequestService_not_allowed_witness :
  @RequestService pdqsort12 Scenario.ext Scenario.engine
    {| ServiceName := "foo";
       ServiceInfo := [{| ExecutionType := "android";
                          ExeCmd := ["/bin/foo"] |}]
                      ++ Scenario.evil_command :: [Scenario.no_command] |}
    world_init
  = Done (response NOT_ALLOWED_COMMAND "foo" TargetInfo_zero)
         (logged [CommandStore "foo"; CommandStore "foo"] world_init).
Proof.
  apply (@RequestService_not_allowed pdqsort12 Scenario.ext Scenario.engine
           "foo" [{| ExecutionType := "android"; ExeCmd := ["/bin/foo"] |}]
           Scenario.evil_command [Scenario.no_command] "/bin/evil" []
           world_init).
  - reflexivity.
  - constructor; [right; now exists []|constructor].
  - reflexivity.
  - reflexivity.
  - discriminate.
Defined.

Lemma gatherRound_collects_witness :
  exists reports cs,
    mapM (worker Scenario.engine_scoring "me" ["10.0.0.1"])
         [Scenario.local_native; Scenario.remote_native]
         (logged [SystemDB; Network] world_init)
    = Done reports (logged cs (logged [SystemDB; Network] world_init)) /\
    length reports = 2 /\
    gatherRound Scenario.ext_native Scenario.engine_scoring
      [Scenario.local_native; Scenario.remote_native] world_init
    = Done (firstn 2 (received [1] (sends reports)),
            Some (if ((0 <? 2) && (2 <=? length (sends reports)))%nat
                  then AllReported else TimedOut))
           (logged ([SystemDB; Network] ++ cs) world_init).
Proof.
  apply (gatherRound_collects Scenario.ext_native Scenario.engine_scoring
           "me" [Scenario.local_native; Scenario.remote_native] world_init).
  reflexivity.
Defined.

(** * Further properties of the request path *)

(** ** [isLocalhost] *)

(** X5: [isLocalhost] answers whether the two address lists have an address
    in common; the order of its arguments does not matter. *)
Theorem isLocalhost_common_address endpoints1 endpoints2 :
  (isLocalhost endpoints1 endpoints2 = true
   <-> exists address, In address endpoints1 /\ In address endpoints2)
  /\ isLocalhost endpoints1 endpoints2 = isLocalhost endpoints2 endpoints1.
Proof.
  assert (S : forall e1 e2,
             isLocalhost e1 e2 = true
             <-> exists a, In a e1 /\ In a e2).
  { intros e1 e2. unfold isLocalhost. rewrite existsb_exists. split.
    - intros (a & H1 & H2). apply existsb_exists in H2 as (b & Hb & E).
      apply String.eqb_eq in E. subst b. now exists a.
    - intros (a & H1 & H2). exists a. split; [assumption|].
      apply existsb_exists. exists a. split; [assumption|].
      apply String.eqb_refl. }
  split; [apply S|].
  destruct (isLocalhost endpoints1 endpoints2) eqn:E1,
           (isLocalhost endpoints2 endpoints1) eqn:E2; try reflexivity.
  - apply S in E1 as (a & H1 & H2).
    assert (T : isLocalhost endpoints2 endpoints1 = true)
      by (apply S; now exists a).
    congruence.
  - apply S in E2 as (a & H1 & H2).
    assert (T : isLocalhost endpoints1 endpoints2 = true)
      by (apply S; now exists a).
    congruence.
Qed.

(** ** Validation decides admission *)

Section Admission.

Variable ext : externals.
Variable serviceName : string.

Lemma validate_None_allowed infos w w1 :
  validate ext serviceName infos w = Done None w1 ->
  Forall (allowed ext serviceName) infos.
Proof.
  revert w. induction infos as [|info infos IH]; intros w;
    cbn [validate]; [constructor|].
  fold (packaged info). destruct (packaged info) eqn:Hp.
  - destruct (ExeCmd info) as [|cmd0 cmds] eqn:Hc; [discriminate|].
    unfold bind, invoke.
    destruct (String.eqb_spec cmd0 (GetServiceFileName ext serviceName))
      as [E|N]; cbn [negb]; [|discriminate].
    intros H. constructor; [|now apply IH in H].
    right. exists cmds. now rewrite Hc, E.
  - intros H. constructor; [now left|now apply IH in H].
Qed.

Lemma validate_Some infos w resp w1 :
  validate ext serviceName infos w = Done (Some resp) w1 ->
  resp = response NOT_ALLOWED_COMMAND serviceName TargetInfo_zero.
Proof.
  revert w. induction infos as [|info infos IH]; intros w;
    cbn [validate]; [discriminate|].
  destruct (_ || _); [|apply IH].
  destruct (ExeCmd info) as [|cmd0 cmds]; [discriminate|].
  unfold bind, invoke. destruct (negb _); [|apply IH].
  unfold ret. now intros [= <- _].
Qed.

(** X6: The validation loop lets a request through exactly when every
    variant of type "native" or "android" has a command line that
    starts with the registered file name; it then has asked the command
    store once per such variant and touched nothing else. *)
Theorem validate_admits_iff infos w :
  ((exists w1, validate ext serviceName infos w = Done None w1)
   <-> Forall (allowed ext serviceName) infos)
  /\ (forall w1, validate ext serviceName infos w = Done None w1 ->
                 w1 = logged (lookups serviceName infos) w).
Proof.
  split; [split|].
  - intros (w1 & H). now apply validate_None_allowed in H.
  - intros H. eexists. now apply validate_allowed.
  - intros w1 H. pose proof (validate_None_allowed _ _ _ H) as A.
    rewrite (validate_allowed ext serviceName infos w A) in H.
    now injection H.
Qed.

End Admission.

(** ** The session table *)

Section Slots.

Context {A : Type}.

Lemma length_set_nth i (v : A) data : length (set_nth i v data) = length data.
Proof.
  revert i. induction data as [|d data IH]; intros [|i]; cbn;
    try reflexivity. now rewrite IH.
Qed.

Lemma nth_set_nth_eq i (v d : A) data :
  i < length data -> nth i (set_nth i v data) d = v.
Proof.
  revert i. induction data as [|a data IH]; intros [|i] H; cbn in *;
    try lia; [reflexivity|]. apply IH. lia.
Qed.

Lemma nth_set_nth_ne i j (v d : A) data :
  i <> j -> nth j (set_nth i v data) d = nth j data d.
Proof.
  revert i j. induction data as [|a data IH]; intros [|i] [|j] H; cbn;
    try reflexivity; try congruence. apply IH. congruence.
Qed.

End Slots.

Lemma wrap32_in_range z :
  (- 2 ^ 31 <= z < 2 ^ 31)%Z -> wrap32 z = z.
Proof.
  intros H. unfold wrap32. rewrite Z.mod_small by lia. lia.
Qed.

(** The world after a request for [name] has claimed slot [client]:
    the counter stands at the slot, the slot holds the name and the
    channel made for it, and the listener and the resolver are in the
    trace after the command-store lookups. *)
Definition admitted (req : ReqeustService) (client : nat) (w : world) : world :=
  {| orchClientID := Z.of_nat client;
     orcheClients :=
       set_nth client
         {| appName := ServiceName req;
            args := args (nth client (orcheClients w) orcheClient_zero);
            notiChan := Some (made w);
            endSignal :=
              endSignal (nth client (orcheClients w) orcheClient_zero) |}
         (orcheClients w);
     made := S (made w);
     calls := calls w
              ++ lookups (ServiceName req) (ServiceInfo req)
              ++ [ListenNotify client;
                  Resolver (ServiceName req)
                    (map ExecutionType (ServiceInfo req))] |}.

(** The handle the next request would get, when the table has room. *)
Definition next_handle (w : world) : option nat :=
  let handle := wrap32 (orchClientID w + 1) in
  if ((0 <=? handle) && (handle <? maxClients))%Z
  then Some (Z.to_nat handle) else None.

Section Intake.

Variable ext : externals.
Variable orcheEngine : orcheImpl.

Lemma intake_allowed req w :
  Ready orcheEngine = true ->
  Forall (allowed ext (ServiceName req)) (ServiceInfo req) ->
  intake ext orcheEngine req w
  = match next_handle w with
    | None => Panic
    | Some client =>
        Done match GetDeviceInfoWithService ext (ServiceName req)
                     (map ExecutionType (ServiceInfo req)) with
             | Ok candidates => inr (client, candidates)
             | Err msg =>
                 inl (response msg (ServiceName req) TargetInfo_zero)
             end
             (admitted req client w)
    end.
Proof.
  intros Hr Ha. unfold intake. rewrite Hr. cbn [negb].
  unfold bind at 1. rewrite (validate_allowed _ _ _ w Ha).
  unfold bind at 1. cbn [atomic_AddInt32_orchClientID].
  unfold bind at 1. cbn [load_orchClientID logged orchClientID].
  unfold bind at 1. unfold addServiceClient, next_handle.
  cbn [logged orchClientID orcheClients made calls].
  destruct (_ && _) eqn:R; [|reflexivity].
  unfold bind, invoke, getCandidate, invoke, logged, admitted.
  cbn [orchClientID orcheClients made calls].
  apply andb_prop in R as [R1 R2]. apply Z.leb_le in R1.
  rewrite Z2Nat.id by assumption.
  rewrite <- !app_assoc. cbn [app].
  destruct (GetDeviceInfoWithService _ _ _); reflexivity.
Qed.

Lemma intake_Done req w r w1 :
  intake ext orcheEngine req w = Done r w1 ->
  (Ready orcheEngine = false /\ w1 = w /\
   r = inl (response INTERNAL_SERVER_ERROR (ServiceName req) TargetInfo_zero))
  \/ (Ready orcheEngine = true /\
      r = inl (response NOT_ALLOWED_COMMAND (ServiceName req) TargetInfo_zero)
      /\ exists cs, w1 = logged cs w /\ existsb isExecute cs = false)
  \/ (Ready orcheEngine = true /\
      Forall (allowed ext (ServiceName req)) (ServiceInfo req) /\
      exists client,
        next_handle w = Some client /\ w1 = admitted req client w /\
        r = match GetDeviceInfoWithService ext (ServiceName req)
                    (map ExecutionType (ServiceInfo req)) with
            | Ok candidates => inr (client, candidates)
            | Err msg =>
                inl (response msg (ServiceName req) TargetInfo_zero)
            end).
Proof.
  destruct (Ready orcheEngine) eqn:Hr.
  - intros H.
    pose proof H as H0. unfold intake in H0. rewrite Hr in H0.
    cbn [negb] in H0. apply bind_inv in H0 as (rej & wv & Hv & Hk).
    destruct rej as [resp|].
    + right. left. split; [reflexivity|].
      unfold ret in Hk. injection Hk as <- <-.
      rewrite (validate_Some _ _ _ _ _ _ Hv). split; [reflexivity|].
      apply validate_trace in Hv as (cs & -> & He & _). now exists cs.
    + right. right. split; [reflexivity|].
      pose proof (validate_None_allowed _ _ _ _ _ Hv) as Ha.
      split; [assumption|].
      rewrite (intake_allowed req w Hr Ha) in H.
      destruct (next_handle w) as [client|]; [|discriminate].
      exists client. injection H as <- <-. auto.
  - intros H. left. unfold intake in H. rewrite Hr in H.
    unfold ret in H. cbn [negb] in H. injection H as <- <-. auto.
Qed.

End Intake.

(** States of the session table that the requests keep to. *)
Record table_ok (w : world) : Prop := {
  table_length : length (orcheClients w) = Z.to_nat maxClients;
  table_counter : (-1 <= orchClientID w < maxClients)%Z;
  table_channels : forall i c,
    notiChan (nth i (orcheClients w) orcheClient_zero) = Some c ->
    c < made w;
  table_unclaimed : forall i,
    (orchClientID w < Z.of_nat i)%Z ->
    nth i (orcheClients w) orcheClient_zero = orcheClient_zero;
  table_claimed : forall i,
    (Z.of_nat i <= orchClientID w)%Z ->
    notiChan (nth i (orcheClients w) orcheClient_zero) <> None;
  table_distinct : forall i j c,
    i <> j ->
    notiChan (nth i (orcheClients w) orcheClient_zero) = Some c ->
    notiChan (nth j (orcheClients w) orcheClient_zero) <> Some c
}.

Section Table.

Lemma table_ok_init : table_ok world_init.
Proof.
  constructor; cbn [world_init orcheClients orchClientID made].
  - apply repeat_length.
  - unfold maxClients. lia.
  - intros i c. now rewrite nth_repeat.
  - intros i _. apply nth_repeat.
  - intros i H. lia.
  - intros i j c _. now rewrite nth_repeat.
Qed.

Lemma table_ok_logged cs w : table_ok w -> table_ok (logged cs w).
Proof. intros [L C Ch U Cl D]. now constructor. Qed.

Lemma next_handle_Some w client :
  (-1 <= orchClientID w < maxClients)%Z ->
  next_handle w = Some client ->
  Z.of_nat client = (orchClientID w + 1)%Z /\ (orchClientID w + 1 < maxClients)%Z.
Proof.
  unfold next_handle, maxClients. intros C.
  rewrite wrap32_in_range by lia.
  destruct (_ && _) eqn:R; [|discriminate].
  apply andb_prop in R as [R1 R2].
  apply Z.leb_le in R1. apply Z.ltb_lt in R2.
  intros [= <-]. rewrite Z2Nat.id by assumption. lia.
Qed.

Lemma table_ok_admitted req client w :
  table_ok w -> next_handle w = Some client ->
  table_ok (admitted req client w).
Proof.
  intros [L C Ch U Cl D] H.
  destruct (next_handle_Some w client C H) as [E B].
  assert (Hc : client < length (orcheClients w))
    by (rewrite L; unfold maxClients in *; lia).
  constructor; cbn [admitted orcheClients orchClientID made].
  - now rewrite length_set_nth.
  - lia.
  - intros i c. destruct (Nat.eq_dec client i) as [<-|N].
    + rewrite nth_set_nth_eq by assumption. cbn. intros [= <-]. lia.
    + rewrite nth_set_nth_ne by assumption. intros Hi.
      apply Ch in Hi. lia.
  - intros i Hi. rewrite nth_set_nth_ne by lia. apply U. lia.
  - intros i Hi. destruct (Nat.eq_dec client i) as [<-|N].
    + rewrite nth_set_nth_eq by assumption. discriminate.
    + rewrite nth_set_nth_ne by assumption. apply Cl. lia.
  - intros i j c Hij.
    destruct (Nat.eq_dec client i) as [<-|Ni];
      destruct (Nat.eq_dec client j) as [<-|Nj]; try contradiction.
    + rewrite nth_set_nth_eq by assumption.
      rewrite nth_set_nth_ne by assumption. cbn. intros [= <-] Hj.
      apply Ch in Hj. lia.
    + rewrite nth_set_nth_ne by assumption.
      rewrite nth_set_nth_eq by assumption. cbn. intros Hi [= <-].
      apply Ch in Hi. lia.
    + rewrite !nth_set_nth_ne by assumption. now apply D.
Qed.

End Table.

(** ** Every way [RequestService] returns *)

Section Outcomes.

Context {sorter : SortSlice}.
Variable ext : externals.
Variable orcheEngine : orcheImpl.

Lemma getExecCmds_Err target infos msg :
  getExecCmds target infos = Err msg -> msg = "Not Found".
Proof.
  induction infos as [|i infos IH]; cbn [getExecCmds].
  - now intros [= <-].
  - destruct (String.eqb _ _); [discriminate|exact IH].
Qed.

Lemma getExecCmds_Ok target infos cmd :
  getExecCmds target infos = Ok cmd ->
  exists variant,
    In variant infos /\ ExecutionType variant = target /\
    ExeCmd variant = cmd.
Proof.
  induction infos as [|i infos IH]; cbn [getExecCmds]; [discriminate|].
  destruct (String.eqb_spec target (ExecutionType i)) as [E|_].
  - intros [= <-]. exists i. repeat split; [now left|now symmetry].
  - intros H. apply IH in H as (v & Hin & Ht & Hc).
    exists v. repeat split; [now right|assumption|assumption].
Qed.

(** The three ways out of the ranking. *)
Lemma rankAndDispatch_Done req client cands w1 resp w3 :
  rankAndDispatch ext orcheEngine req client cands w1 = Done resp w3 ->
  exists gathered cs,
    gatherDevicesScore ext orcheEngine cands w1 = Done gathered (logged cs w1)
    /\ existsb isExecute cs = false
    /\ ((resp = response SERVICE_NOT_FOUND (ServiceName req) TargetInfo_zero
         /\ w3 = logged cs w1)
        \/ (resp = response "Not Found" (ServiceName req) TargetInfo_zero
            /\ w3 = logged cs w1)
        \/ (exists first rest cmd,
              sortByScore gathered = first :: rest
              /\ eq (score first) (INVALID_SCORE ext) = false
              /\ getExecCmds (execType first) (ServiceInfo req) = Ok cmd
              /\ resp = response ERROR_NONE (ServiceName req)
                          {| TargetExecutionType := execType first;
                             Target := endpoint first |}
              /\ w3 = logged [Execute (endpoint first) (ServiceName req) cmd
                                (notiChan (nth client (orcheClients w1)
                                               orcheClient_zero))]
                        (logged cs w1))).
Proof.
  destruct (gatherDevicesScore_returns ext orcheEngine cands w1)
    as (gathered & cs & Hg & He).
  intros H. exists gathered, cs. split; [assumption|]. split; [assumption|].
  unfold rankAndDispatch in H. rewrite (bind_Done _ _ _ _ _ Hg) in H.
  destruct (sortByScore gathered) as [|first rest] eqn:Hs.
  - left. unfold ret in H. injection H as <- <-. auto.
  - destruct (eq (score first) (INVALID_SCORE ext)) eqn:Hv.
    + left. unfold ret in H. injection H as <- <-. auto.
    + destruct (getExecCmds (execType first) (ServiceInfo req))
        as [cmd|msg] eqn:Hm.
      * right. right. exists first, rest, cmd.
        unfold bind, load_notiChan, executeApp, invoke, ret in H.
        injection H as <- <-. repeat split; try assumption; reflexivity.
      * right. left. apply getExecCmds_Err in Hm as ->.
        unfold ret in H. injection H as <- <-. auto.
Qed.

Lemma RequestService_Done req w resp w' :
  RequestService ext orcheEngine req w = Done resp w' ->
  exists r w1,
    intake ext orcheEngine req w = Done r w1
    /\ match r with
       | inl early => resp = early /\ w' = w1
       | inr (client, cands) =>
           rankAndDispatch ext orcheEngine req client cands w1 = Done resp w'
       end.
Proof.
  unfold RequestService. intros H.
  apply bind_inv in H as (r & w1 & Hi & Hk).
  exists r, w1. split; [assumption|].
  destruct r as [early|[client cands]]; [|assumption].
  unfold ret in Hk. now injection Hk as <- <-.
Qed.

Lemma RequestService_table_ok req w resp w' :
  table_ok w ->
  RequestService ext orcheEngine req w = Done resp w' ->
  table_ok w'.
Proof.
  intros T H.
  apply RequestService_Done in H as (r & w1 & Hi & Hk).
  assert (T1 : table_ok w1).
  { apply intake_Done in Hi
      as [(_ & -> & _) | [(_ & _ & cs & -> & _)
                         | (_ & _ & client & Hn & -> & _)]].
    - assumption.
    - now apply table_ok_logged.
    - now apply table_ok_admitted. }
  destruct r as [early|[client cands]].
  - now destruct Hk as [_ ->].
  - apply rankAndDispatch_Done in Hk
      as (gathered & cs & _ & _ & [(_ & ->) | [(_ & ->) | K]]).
    + now apply table_ok_logged.
    + now apply table_ok_logged.
    + destruct K as (first & rest & cmd & _ & _ & _ & _ & ->).
      now apply table_ok_logged, table_ok_logged.
Qed.

(** X7: Served one after another (no request running between another's
    call and return), requests that return keep the session table well
    formed: 1024 slots, the counter between -1 and 1023, a channel of
    its own in every slot handed out so far, and the slots above the
    counter still zero-valued.  The table starts that way.  Nothing is
    said of the state a panicking request leaves. *)
Theorem RequestService_keeps_table :
  table_ok world_init
  /\ forall req w resp w',
       table_ok w ->
       RequestService ext orcheEngine req w = Done resp w' ->
       table_ok w'.
Proof.
  split; [apply table_ok_init|]. intros req w resp w'.
  apply RequestService_table_ok.
Qed.

End Outcomes.

Module Cases.

(** The table after 1024 requests have been let in. *)
Definition table_full : world :=
  {| orchClientID := 1023;
     orcheClients := orcheClients world_init;
     made := 1024;
     calls := [] |}.

(** A resolver that fails. *)
Definition ext_unresolved : externals :=
  {| GetServiceFileName := fun _ => "/bin/foo";
     GetDeviceInfoWithService := fun _ _ => Err "no device";
     sysDB_Get := Ok "me";
     INVALID_SCORE := (-1)%float;
     arrival := [] |}.

End Cases.

Section Requests.

Context {sorter : SortSlice}.
Variable ext : externals.
Variable orcheEngine : orcheImpl.

Lemma no_Execute_filter cs : existsb isExecute cs = false -> filter isExecute cs = [].
Proof.
  induction cs as [|c cs IH]; cbn; [reflexivity|].
  destruct (isExecute c); [discriminate|exact IH].
Qed.

Lemma lookups_no_Execute name infos : existsb isExecute (lookups name infos) = false.
Proof.
  unfold lookups. induction (filter packaged infos) as [|i l IH];
    [reflexivity|exact IH].
Qed.

Lemma rankAndDispatch_returns req client cands w1 :
  exists resp cs,
    rankAndDispatch ext orcheEngine req client cands w1
    = Done resp (logged cs w1).
Proof.
  destruct (gatherDevicesScore_returns ext orcheEngine cands w1)
    as (gathered & cs & Hg & _).
  unfold rankAndDispatch. rewrite (bind_Done _ _ _ _ _ Hg).
  destruct (sortByScore gathered) as [|first rest];
    [now eexists; eexists|].
  destruct (eq _ _); [now eexists; eexists|].
  destruct (getExecCmds _ _); [|now eexists; eexists].
  unfold bind, load_notiChan, executeApp, invoke, ret.
  rewrite logged_logged. now eexists; eexists.
Qed.

Lemma RequestService_no_room req w :
  Ready orcheEngine = true ->
  Forall (allowed ext (ServiceName req)) (ServiceInfo req) ->
  (maxClients - 1 <= orchClientID w < 2 ^ 31 - 1)%Z ->
  RequestService ext orcheEngine req w = Panic.
Proof.
  intros Hr Ha Hc. unfold RequestService. apply bind_Panic.
  rewrite (intake_allowed ext orcheEngine req w Hr Ha).
  unfold next_handle. rewrite wrap32_in_range by (unfold maxClients in Hc; lia).
  destruct (Z.ltb_spec (orchClientID w + 1) maxClients) as [L|_]; [lia|].
  now rewrite andb_false_r.
Qed.

Lemma RequestService_out_of_table req w :
  Ready orcheEngine = true ->
  Forall (allowed ext (ServiceName req)) (ServiceInfo req) ->
  (- 2 ^ 31 <= orchClientID w < 2 ^ 31)%Z ->
  (orchClientID w < -1 \/ maxClients - 1 <= orchClientID w)%Z ->
  RequestService ext orcheEngine req w = Panic.
Proof.
  intros Hr Ha Hi Hc. unfold RequestService. apply bind_Panic.
  rewrite (intake_allowed ext orcheEngine req w Hr Ha).
  assert (N : next_handle w = None); [|now rewrite N].
  unfold next_handle.
  destruct (Z.eq_dec (orchClientID w) (2 ^ 31 - 1)) as [E|E].
  - rewrite E. reflexivity.
  - rewrite wrap32_in_range by lia.
    destruct (Z.leb_spec 0 (orchClientID w + 1)); [|reflexivity].
    destruct (Z.ltb_spec (orchClientID w + 1) maxClients); [|reflexivity].
    unfold maxClients in *. lia.
Qed.

(** X8: A request that passes validation on a ready engine panics on the
    slot index, instead of writing a slot, whenever the [int32] counter
    it finds is not one of -1 .. 1022: at 1023 and above the handle
    would be 1024 or more, at 2^31 - 1 the increment wraps around to a
    negative handle, and below -1 the handle is negative. *)
Theorem RequestService_table_full req w :
  Ready orcheEngine = true ->
  Forall (allowed ext (ServiceName req)) (ServiceInfo req) ->
  (- 2 ^ 31 <= orchClientID w < 2 ^ 31)%Z ->
  (orchClientID w < -1 \/ maxClients - 1 <= orchClientID w)%Z ->
  RequestService ext orcheEngine req w = Panic.
Proof. apply RequestService_out_of_table. Qed.

(** X9: A resolver failure is answered with the resolver's message and a
    zero-valued target, after the handle has been claimed and the
    listener started: the counter has moved, the slot is taken, and
    neither the identity store, the scoring nor the backend has been
    invoked. *)
Theorem RequestService_resolver_error req w client msg :
  Ready orcheEngine = true ->
  Forall (allowed ext (ServiceName req)) (ServiceInfo req) ->
  next_handle w = Some client ->
  GetDeviceInfoWithService ext (ServiceName req)
    (map ExecutionType (ServiceInfo req)) = Err msg ->
  RequestService ext orcheEngine req w
  = Done {| Message := msg;
            ResponseServiceName := ServiceName req;
            RemoteTargetInfo := TargetInfo_zero |}
         (admitted req client w).
Proof.
  intros Hr Ha Hn He. apply RequestService_early.
  rewrite (intake_allowed ext orcheEngine req w Hr Ha), Hn, He.
  reflexivity.
Qed.

Lemma RequestService_admits_next req w :
  Ready orcheEngine = true ->
  Forall (allowed ext (ServiceName req)) (ServiceInfo req) ->
  table_ok w -> (orchClientID w < maxClients - 1)%Z ->
  exists resp w',
    RequestService ext orcheEngine req w = Done resp w'
    /\ orchClientID w' = (orchClientID w + 1)%Z
    /\ made w' = S (made w)
    /\ (let slot := nth (Z.to_nat (orchClientID w + 1)) (orcheClients w')
                       orcheClient_zero in
        appName slot = ServiceName req /\ notiChan slot = Some (made w))
    /\ (forall j, j <> Z.to_nat (orchClientID w + 1) ->
          nth j (orcheClients w') orcheClient_zero
          = nth j (orcheClients w) orcheClient_zero
          /\ notiChan (nth j (orcheClients w') orcheClient_zero)
             <> Some (made w)).
Proof.
  intros Hr Ha T Hc.
  pose proof (table_counter w T) as C.
  pose proof (table_length w T) as L.
  assert (Hn : next_handle w = Some (Z.to_nat (orchClientID w + 1))).
  { unfold next_handle. rewrite wrap32_in_range by (unfold maxClients in *; lia).
    destruct (Z.leb_spec 0 (orchClientID w + 1)); [|lia].
    destruct (Z.ltb_spec (orchClientID w + 1) maxClients); [|lia].
    reflexivity. }
  set (client := Z.to_nat (orchClientID w + 1)) in *.
  assert (Hl : client < length (orcheClients w))
    by (rewrite L; unfold client, maxClients in *; lia).
  assert (R : exists resp cs,
             RequestService ext orcheEngine req w
             = Done resp (logged cs (admitted req client w))).
  { pose proof (intake_allowed ext orcheEngine req w Hr Ha) as Hi.
    rewrite Hn in Hi.
    destruct (GetDeviceInfoWithService _ _ _) as [cands|msg].
    - rewrite (RequestService_scoring _ _ _ _ _ _ _ Hi).
      apply rankAndDispatch_returns.
    - exists (response msg (ServiceName req) TargetInfo_zero), [].
      rewrite logged_nil. now apply RequestService_early. }
  destruct R as (resp & cs & ->). exists resp. eexists.
  split; [reflexivity|].
  cbn [logged admitted orchClientID orcheClients made].
  split; [unfold client; lia|]. split; [reflexivity|].
  split.
  - rewrite nth_set_nth_eq by assumption. now split.
  - intros j Hj. rewrite nth_set_nth_ne by (fold client; congruence).
    split; [reflexivity|]. intros E.
    apply (table_channels w T) in E. lia.
Qed.

(** X10: With room in a well-formed table, a ready engine answers every
    request that passes validation and runs with no other request
    between its call and its return (no panic), and the request has
    claimed the next slot: the counter is one higher, the slot holds
    the service name and a channel that no other slot holds, and every
    other slot is as it was. *)
Theorem RequestService_claims_next_slot req w :
  Ready orcheEngine = true ->
  Forall (allowed ext (ServiceName req)) (ServiceInfo req) ->
  table_ok w -> (orchClientID w < maxClients - 1)%Z ->
  exists resp w',
    RequestService ext orcheEngine req w = Done resp w'
    /\ orchClientID w' = (orchClientID w + 1)%Z
    /\ made w' = S (made w)
    /\ (let slot := nth (Z.to_nat (orchClientID w + 1)) (orcheClients w')
                       orcheClient_zero in
        appName slot = ServiceName req /\ notiChan slot = Some (made w))
    /\ (forall j, j <> Z.to_nat (orchClientID w + 1) ->
          nth j (orcheClients w') orcheClient_zero
          = nth j (orcheClients w) orcheClient_zero
          /\ notiChan (nth j (orcheClients w') orcheClient_zero)
             <> Some (made w)).
Proof. apply RequestService_admits_next. Qed.

(** X11: The responses [RequestService] gives: the request's service name
    comes back in every one; the result code is INTERNAL_SERVER_ERROR,
    NOT_ALLOWED_COMMAND, SERVICE_NOT_FOUND, "Not Found", ERROR_NONE or
    the message of the resolver's error; and the target is zero-valued
    unless the code is ERROR_NONE. *)
Theorem RequestService_response_shape req w resp w' :
  RequestService ext orcheEngine req w = Done resp w' ->
  ResponseServiceName resp = ServiceName req
  /\ (In (Message resp)
         [INTERNAL_SERVER_ERROR; NOT_ALLOWED_COMMAND; SERVICE_NOT_FOUND;
          "Not Found"; ERROR_NONE]
      \/ GetDeviceInfoWithService ext (ServiceName req)
           (map ExecutionType (ServiceInfo req)) = Err (Message resp))
  /\ (Message resp = ERROR_NONE \/ RemoteTargetInfo resp = TargetInfo_zero).
Proof.
  intros H. apply RequestService_Done in H as (r & w1 & Hi & Hk).
  apply intake_Done in Hi
    as [(_ & _ & ->) | [(_ & -> & _) | (_ & _ & client & _ & _ & ->)]].
  - destruct Hk as [-> _]. cbn. intuition reflexivity.
  - destruct Hk as [-> _]. cbn. intuition reflexivity.
  - destruct (GetDeviceInfoWithService _ _ _) as [cands|msg] eqn:E.
    + apply rankAndDispatch_Done in Hk
        as (gathered & cs & _ & _ & [(-> & _) | [(-> & _) | K]]).
      * cbn. intuition reflexivity.
      * cbn. intuition reflexivity.
      * destruct K as (first & rest & cmd & _ & _ & _ & -> & _).
        cbn. intuition reflexivity.
    + destruct Hk as [-> _]. cbn. intuition reflexivity.
Qed.

(** X12: A request that runs with no other request between its call and
    its return executes at most once, and only what was allowed:
    if the backend is invoked at all, it is invoked once, the response
    is ERROR_NONE, the endpoint is the response's target, the command
    line is that of a variant of the request whose type is the
    response's execution type and which passed validation (so a native
    or android command line starts with the registered file name), and
    the channel is the one made for this request. *)
Theorem RequestService_executes_once req w resp w' :
  table_ok w ->
  RequestService ext orcheEngine req w = Done resp w' ->
  exists cs,
    calls w' = calls w ++ cs
    /\ (filter isExecute cs = []
        \/ exists variant,
             In variant (ServiceInfo req)
             /\ ExecutionType variant
                = TargetExecutionType (RemoteTargetInfo resp)
             /\ allowed ext (ServiceName req) variant
             /\ Message resp = ERROR_NONE
             /\ filter isExecute cs
                = [Execute (Target (RemoteTargetInfo resp)) (ServiceName req)
                     (ExeCmd variant) (Some (made w))]).
Proof.
  intros T H. apply RequestService_Done in H as (r & w1 & Hi & Hk).
  apply intake_Done in Hi
    as [(_ & -> & ->) | [(_ & -> & cs & -> & He)
                        | (_ & Ha & client & Hn & -> & ->)]].
  - destruct Hk as [_ ->]. exists []. rewrite app_nil_r. auto.
  - destruct Hk as [_ ->]. exists cs. split; [reflexivity|].
    left. now apply no_Execute_filter.
  - set (pre := lookups (ServiceName req) (ServiceInfo req)
                ++ [ListenNotify client;
                    Resolver (ServiceName req)
                      (map ExecutionType (ServiceInfo req))]).
    assert (Pre : filter isExecute pre = []).
    { unfold pre. rewrite filter_app.
      rewrite (no_Execute_filter _ (lookups_no_Execute _ _)). reflexivity. }
    destruct (GetDeviceInfoWithService _ _ _) as [cands|msg].
    + apply rankAndDispatch_Done in Hk
        as (gathered & cs & _ & He & [(_ & ->) | [(_ & ->) | K]]).
      * exists (pre ++ cs). cbn [logged admitted calls].
        split; [unfold pre; now rewrite <- !app_assoc|]. left.
        now rewrite filter_app, Pre, (no_Execute_filter _ He).
      * exists (pre ++ cs). cbn [logged admitted calls].
        split; [unfold pre; now rewrite <- !app_assoc|]. left.
        now rewrite filter_app, Pre, (no_Execute_filter _ He).
      * destruct K as (first & rest & cmd & _ & _ & Hm & -> & ->).
        apply getExecCmds_Ok in Hm as (variant & Hin & Ht & Hc).
        eexists (pre ++ cs ++ [_]). cbn [logged admitted calls].
        split; [unfold pre; now rewrite <- !app_assoc|]. right.
        exists variant. split; [assumption|]. split; [assumption|].
        split; [now apply (proj1 (Forall_forall _ _) Ha)|].
        split; [reflexivity|].
        rewrite !filter_app, Pre, (no_Execute_filter _ He).
        cbn [filter isExecute app response RemoteTargetInfo Target].
        rewrite Hc. f_equal. f_equal.
        cbn [orcheClients admitted].
        destruct (next_handle_Some w client (table_counter w T) Hn) as [E B].
        rewrite nth_set_nth_eq; [reflexivity|].
        rewrite (table_length w T). unfold maxClients in *. lia.
    + destruct Hk as [_ ->]. exists pre. cbn [admitted calls].
      split; [reflexivity|]. left. exact Pre.
Qed.

End Requests.

(** ** The workers of a round, one by one *)

(** What the worker of a candidate sends, and the collaborators it
    invokes, read off a run of the worker. *)
Definition reportOf (orcheEngine : orcheImpl) (info : string)
    (localhosts : list string) (cand : ExecutionCandidate)
  : option deviceScore :=
  match worker orcheEngine info localhosts cand world_init with
  | Done r _ => r
  | Panic => None
  end.

Definition callsOf (orcheEngine : orcheImpl) (info : string)
    (localhosts : list string) (cand : ExecutionCandidate) : list call :=
  match worker orcheEngine info localhosts cand world_init with
  | Done _ w => calls w
  | Panic => []
  end.

(** The scoring call made for a candidate: none without an endpoint,
    else the local scoring function when the candidate shares an
    address with this host, else the remote client on the candidate's
    first endpoint. *)
Definition scoringCall (info : string) (localhosts : list string)
    (cand : ExecutionCandidate) : list call :=
  match Endpoint cand with
  | [] => []
  | endpoint0 :: _ =>
      [if isLocalhost (Endpoint cand) localhosts
       then LocalScoring info else RemoteScoring info endpoint0]
  end.

(** The score [d] is one a worker may send for the candidate [c]. *)
Definition scored_for (c : ExecutionCandidate) (d : deviceScore) : Prop :=
  id d = Id c
  /\ endpoint d = hd "" (Endpoint c)
  /\ (execType d = ExecType c \/ (execType d = "" /\ score d = zero)).

Section Workers.

Variable ext : externals.
Variable orcheEngine : orcheImpl.
Variable info : string.
Variable localhosts : list string.

Lemma worker_eq cand w :
  worker orcheEngine info localhosts cand w
  = Done (reportOf orcheEngine info localhosts cand)
         (logged (callsOf orcheEngine info localhosts cand) w).
Proof.
  unfold reportOf, callsOf, worker.
  destruct (Endpoint cand) as [|endpoint0 others].
  - unfold ret. cbn. now rewrite logged_nil.
  - destruct (isLocalhost _ _); unfold bind, invoke;
      [destruct (GetScore orcheEngine info)
      |destruct (DoGetScoreRemoteDevice orcheEngine info endpoint0)];
      reflexivity.
Qed.

Lemma workers_eq cands w :
  mapM (worker orcheEngine info localhosts) cands w
  = Done (map (reportOf orcheEngine info localhosts) cands)
         (logged (flat_map (callsOf orcheEngine info localhosts) cands) w).
Proof.
  revert w. induction cands as [|cand cands IH]; intros w; cbn [mapM map flat_map].
  - unfold ret. now rewrite logged_nil.
  - unfold bind at 1. rewrite worker_eq. unfold bind at 1. rewrite IH.
    unfold ret. now rewrite logged_logged.
Qed.

Lemma callsOf_scoringCall cand :
  callsOf orcheEngine info localhosts cand = scoringCall info localhosts cand.
Proof.
  unfold callsOf, scoringCall, worker.
  destruct (Endpoint cand) as [|endpoint0 others]; [reflexivity|].
  destruct (isLocalhost _ _); unfold bind, invoke;
    [destruct (GetScore orcheEngine info)
    |destruct (DoGetScoreRemoteDevice orcheEngine info endpoint0)];
    reflexivity.
Qed.

Lemma reportOf_scored_for cand d :
  reportOf orcheEngine info localhosts cand = Some d -> scored_for cand d.
Proof.
  unfold reportOf, worker, scored_for.
  destruct (Endpoint cand) as [|endpoint0 others].
  - unfold ret. intros [= <-]. cbn. auto.
  - destruct (isLocalhost _ _); unfold bind, invoke;
      [destruct (GetScore orcheEngine info)
      |destruct (DoGetScoreRemoteDevice orcheEngine info endpoint0)];
      unfold ret; intros [= <-]; cbn; auto.
Qed.

Lemma reportOf_Late cand endpoint0 others :
  Endpoint cand = endpoint0 :: others ->
  (if isLocalhost (Endpoint cand) localhosts
   then GetScore orcheEngine info
   else DoGetScoreRemoteDevice orcheEngine info endpoint0) = Late ->
  reportOf orcheEngine info localhosts cand = None.
Proof.
  intros He Hl. unfold reportOf, worker. rewrite He. rewrite <- He.
  destruct (isLocalhost _ _); unfold bind, invoke; now rewrite Hl.
Qed.

End Workers.

Section RoundFacts.

Variable ext : externals.
Variable orcheEngine : orcheImpl.

(** The round in closed form. *)
Lemma gatherRound_eq info cands w :
  sysDB_Get ext = Ok info ->
  let localhosts := fst (GetIPs orcheEngine) in
  let sent := sends (map (reportOf orcheEngine info localhosts) cands) in
  gatherRound ext orcheEngine cands w
  = Done (firstn (length cands) (received (arrival ext) sent),
          Some (if ((0 <? length cands) && (length cands <=? length sent))%nat
                then AllReported else TimedOut))
         (logged ([SystemDB; Network]
                    ++ flat_map (scoringCall info localhosts) cands) w).
Proof.
  intros H localhosts sent.
  unfold gatherRound. unfold bind at 1. unfold invoke at 1. rewrite H.
  unfold bind at 1. unfold invoke at 1. rewrite logged_logged. cbn [app].
  unfold bind at 1. rewrite workers_eq. fold localhosts. fold sent.
  rewrite logged_logged.
  rewrite (flat_map_ext _ _ (callsOf_scoringCall orcheEngine info localhosts)).
  set (arrived := received (arrival ext) sent).
  assert (La : length arrived = length sent)
    by apply Permutation_length, received_Permutation.
  assert (Ls : length sent <= length cands).
  { unfold sent. etransitivity; [apply sends_length|]. now rewrite length_map. }
  destruct (length cands) as [|n] eqn:En.
  - rewrite collector_past by lia. cbn [app firstn andb Nat.ltb Nat.leb].
    destruct arrived; [reflexivity|cbn [length] in La; lia].
  - rewrite collector_pending by lia. rewrite Nat.sub_0_r, La.
    change (0 <? S n)%nat with true. cbn [andb].
    destruct (S n <=? length sent)%nat eqn:L; [reflexivity|].
    apply Nat.leb_gt in L. cbn [app]. unfold ret.
    now rewrite firstn_all2 by lia.
Qed.

Lemma sends_with_None reports :
  In None reports -> length (sends reports) < length reports.
Proof.
  induction reports as [|[d|] reports IH]; cbn [sends length In].
  - contradiction.
  - intros [E|H]; [discriminate|]. apply IH in H. lia.
  - intros _. pose proof (sends_length reports). lia.
Qed.

(** X13: A candidate whose scoring call does not return within the time
    budget keeps the round waiting for the timeout: the collector
    leaves on the timeout signal, with fewer scores than candidates. *)
Theorem gatherRound_late_candidate info cands cand endpoint0 others w :
  sysDB_Get ext = Ok info ->
  In cand cands ->
  Endpoint cand = endpoint0 :: others ->
  (if isLocalhost (Endpoint cand) (fst (GetIPs orcheEngine))
   then GetScore orcheEngine info
   else DoGetScoreRemoteDevice orcheEngine info endpoint0) = Late ->
  exists ds w',
    gatherRound ext orcheEngine cands w = Done (ds, Some TimedOut) w'
    /\ length ds < length cands.
Proof.
  intros Hid Hin He Hl.
  rewrite (gatherRound_eq info cands w Hid). cbv zeta.
  set (sent := sends _).
  assert (L : length sent < length cands).
  { unfold sent.
    rewrite <- (length_map (reportOf orcheEngine info
                              (fst (GetIPs orcheEngine))) cands).
    apply sends_with_None. apply in_map_iff. exists cand.
    split; [|assumption]. now apply (reportOf_Late _ _ _ _ endpoint0 others). }
  destruct (Nat.leb_spec (length cands) (length sent)) as [B|_]; [lia|].
  rewrite andb_false_r. eexists. eexists. split; [reflexivity|].
  rewrite length_firstn.
  rewrite (Permutation_length (received_Permutation _ _)). lia.
Qed.

(** X14: Scoring is attempted once per candidate that has an endpoint and
    never for one that has none: with the identity known, the scoring
    calls of a round are, up to their order, exactly one per such
    candidate, the local function for a candidate that shares an
    address with this host and the remote client on the first endpoint
    otherwise, whether or not the answer comes in time. *)
Theorem gatherDevicesScore_scoring_calls info cands w :
  sysDB_Get ext = Ok info ->
  exists ds cs,
    gatherDevicesScore ext orcheEngine cands w = Done ds (logged cs w)
    /\ Permutation (filter isScoring cs)
         (flat_map (scoringCall info (fst (GetIPs orcheEngine))) cands).
Proof.
  intros Hid. rewrite gatherDevicesScore_round.
  rewrite (gatherRound_eq info cands w Hid). cbv zeta.
  eexists. eexists. split; [reflexivity|].
  cbn [app filter isScoring].
  induction cands as [|c cands IH]; cbn [flat_map]; [reflexivity|].
  rewrite filter_app. apply Permutation_app; [|exact IH].
  unfold scoringCall. destruct (Endpoint c); [reflexivity|].
  now destruct (isLocalhost _ _).
Qed.

(** X15: When the address lookup yields no address (as a failed lookup
    does), no candidate counts as local: the local scoring function is
    never invoked, and every candidate with an endpoint is scored by
    the remote client on its first endpoint. *)
Theorem gatherDevicesScore_no_local_address info cands w :
  sysDB_Get ext = Ok info ->
  fst (GetIPs orcheEngine) = [] ->
  exists ds cs,
    gatherDevicesScore ext orcheEngine cands w = Done ds (logged cs w)
    /\ filter isScoring cs
       = flat_map (fun c => match Endpoint c with
                            | [] => []
                            | endpoint0 :: _ => [RemoteScoring info endpoint0]
                            end) cands.
Proof.
  intros Hid Hips. rewrite gatherDevicesScore_round.
  rewrite (gatherRound_eq info cands w Hid). cbv zeta. rewrite Hips.
  eexists. eexists. split; [reflexivity|].
  cbn [app filter isScoring].
  induction cands as [|c cands IH]; cbn [flat_map]; [reflexivity|].
  rewrite filter_app, IH. f_equal.
  unfold scoringCall. destruct (Endpoint c) as [|e0 es]; [reflexivity|].
  assert (N : isLocalhost (e0 :: es) [] = false).
  { unfold isLocalhost. induction (e0 :: es) as [|x l IHl]; [reflexivity|].
    cbn. exact IHl. }
  now rewrite N.
Qed.

End RoundFacts.

(** ** Where the collected scores come from *)

Section Provenance.

Variable ext : externals.
Variable orcheEngine : orcheImpl.

(** The candidates whose worker sends, each with what it sends. *)
Fixpoint senders (info : string) (localhosts : list string)
    (cands : list ExecutionCandidate)
  : list (ExecutionCandidate * deviceScore) :=
  match cands with
  | [] => []
  | c :: cands' =>
      match reportOf orcheEngine info localhosts c with
      | Some d => (c, d) :: senders info localhosts cands'
      | None => senders info localhosts cands'
      end
  end.

Lemma senders_sends info localhosts cands :
  sends (map (reportOf orcheEngine info localhosts) cands)
  = map snd (senders info localhosts cands).
Proof.
  induction cands as [|c cands IH]; cbn [map sends senders]; [reflexivity|].
  destruct (reportOf _ _ _ c); cbn [map snd sends]; now rewrite IH.
Qed.

Lemma senders_among info localhosts cands :
  exists silent,
    Permutation (map fst (senders info localhosts cands) ++ silent) cands.
Proof.
  induction cands as [|c cands (silent & IH)]; cbn [senders].
  - now exists [].
  - destruct (reportOf _ _ _ c).
    + exists silent. cbn. now apply perm_skip.
    + exists (c :: silent). rewrite <- Permutation_middle.
      now apply perm_skip.
Qed.

Lemma senders_scored_for info localhosts cands c d :
  In (c, d) (senders info localhosts cands) -> scored_for c d.
Proof.
  induction cands as [|c0 cands IH]; cbn [senders]; [contradiction|].
  destruct (reportOf _ _ _ c0) as [d0|] eqn:E; [|exact IH].
  intros [[= <- <-]|H]; [|now apply IH].
  now apply (reportOf_scored_for orcheEngine info localhosts).
Qed.

(** X16: Every score the aggregator returns was sent for a candidate of the
    round, under that candidate's id and first endpoint (empty when it
    has none), with the candidate's execution type or, for a candidate
    that could not be scored, with no type and score 0; and no
    candidate stands behind two of the scores returned. *)
Theorem gatherDevicesScore_one_per_candidate cands w ds w' :
  gatherDevicesScore ext orcheEngine cands w = Done ds w' ->
  exists chosen others,
    Forall2 scored_for chosen ds
    /\ Permutation (chosen ++ others) cands.
Proof.
  rewrite gatherDevicesScore_round.
  destruct (sysDB_Get ext) as [info|msg] eqn:Hid.
  - rewrite (gatherRound_eq ext orcheEngine info cands w Hid). cbv zeta.
    intros [= <- _].
    set (localhosts := fst (GetIPs orcheEngine)).
    rewrite senders_sends.
    set (pairs := senders info localhosts cands).
    pose proof (received_Permutation (arrival ext) (map snd pairs)) as P.
    apply Permutation_map_inv in P as (arrived & Ea & Pa).
    rewrite Ea, firstn_map. cbn [fst].
    destruct (senders_among info localhosts cands) as (silent & Hs).
    exists (map fst (firstn (length cands) arrived)),
           (map fst (skipn (length cands) arrived) ++ silent).
    split.
    + assert (F : Forall (fun p => scored_for (fst p) (snd p))
                    (firstn (length cands) arrived)).
      { apply Forall_forall. intros [c d] Hin.
        apply (senders_scored_for info localhosts cands).
        apply (Permutation_in _ (Permutation_sym Pa)).
        rewrite <- (firstn_skipn (length cands) arrived).
        apply in_or_app. now left. }
      induction F as [|p l Hp _ IH]; cbn [map]; constructor; assumption.
    + rewrite app_assoc, <- map_app, firstn_skipn.
      rewrite <- Hs. apply Permutation_app_tail.
      now apply Permutation_map, Permutation_sym.
  - rewrite (gatherRound_anonymous ext orcheEngine msg cands w Hid).
    intros [= <- _]. exists [], cands. split; [constructor|reflexivity].
Qed.

End Provenance.

(** ** The winner *)

(** The scoring call for the candidate does not return within the
    time budget. *)
Definition unanswered (orcheEngine : orcheImpl) (info : string)
    (cand : ExecutionCandidate) : Prop :=
  exists endpoint0 others,
    Endpoint cand = endpoint0 :: others
    /\ (if isLocalhost (Endpoint cand) (fst (GetIPs orcheEngine))
        then GetScore orcheEngine info
        else DoGetScoreRemoteDevice orcheEngine info endpoint0) = Late.

Section Winner.

Context {sorter : SortSlice}.
Variable ext : externals.
Variable orcheEngine : orcheImpl.

Lemma ge_refl_number x : number x -> ge x x = true.
Proof. intros H. apply ge_key; auto. apply lex_lt_irrefl. Qed.

Lemma sortByScore_head l first rest :
  Forall numeric l ->
  sortByScore l = first :: rest ->
  In first l /\ Forall (fun d => ge (score first) (score d) = true) l.
Proof.
  intros Hn Hs.
  pose proof (sort_Slice_Permutation _ l
                (fun di dj => gt (score di) (score dj))) as P.
  fold (sortByScore l) in P. rewrite Hs in P.
  split.
  - apply (Permutation_in _ (Permutation_sym P)). now left.
  - apply (Permutation_Forall (Permutation_sym P)).
    pose proof (sortByScore_descending l Hn) as D. rewrite Hs in D.
    inversion D as [|? ? _ F]; subst. constructor; [|assumption].
    apply ge_refl_number.
    pose proof (sortByScore_numeric l Hn) as N. rewrite Hs in N.
    now inversion N.
Qed.

(** X17: Over scores that are numbers, the entry ranked first is one of the
    collected entries and no collected entry has a greater score. *)
Theorem sortByScore_best_first l first rest :
  Forall numeric l ->
  sortByScore l = first :: rest ->
  In first l /\ Forall (fun d => ge (score first) (score d) = true) l.
Proof. apply sortByScore_head. Qed.

(** X18: When [RequestService] answers ERROR_NONE after a round whose
    scores are numbers, the target it names is the endpoint and
    execution type of a collected score that no other collected score
    exceeds. *)
Theorem RequestService_selects_best
    req w client cands w1 gathered w2 resp w3 :
  intake ext orcheEngine req w = Done (inr (client, cands)) w1 ->
  gatherDevicesScore ext orcheEngine cands w1 = Done gathered w2 ->
  Forall numeric gathered ->
  RequestService ext orcheEngine req w = Done resp w3 ->
  Message resp = ERROR_NONE ->
  exists winner,
    In winner gathered
    /\ Target (RemoteTargetInfo resp) = endpoint winner
    /\ TargetExecutionType (RemoteTargetInfo resp) = execType winner
    /\ Forall (fun d => ge (score winner) (score d) = true) gathered.
Proof.
  intros Hi Hg Hn H Hm.
  rewrite (RequestService_scoring _ _ _ _ _ _ _ Hi) in H.
  apply rankAndDispatch_Done in H
    as (gathered' & cs & Hg' & _ & [(-> & _) | [(-> & _) | K]]).
  - discriminate Hm.
  - discriminate Hm.
  - destruct K as (first & rest & cmd & Hs & _ & _ & -> & _).
    rewrite Hg in Hg'. injection Hg' as <- _.
    destruct (sortByScore_head gathered first rest Hn Hs) as [I F].
    exists first. auto.
Qed.

(** X19: When no candidate's scoring call returns within the time budget,
    the round collects nothing and the request ends in
    SERVICE_NOT_FOUND with a zero-valued target; the scoring calls have
    been made all the same. *)
Theorem RequestService_nobody_answers req w client cands w1 info :
  intake ext orcheEngine req w = Done (inr (client, cands)) w1 ->
  sysDB_Get ext = Ok info ->
  Forall (unanswered orcheEngine info) cands ->
  RequestService ext orcheEngine req w
  = Done {| Message := SERVICE_NOT_FOUND;
            ResponseServiceName := ServiceName req;
            RemoteTargetInfo := TargetInfo_zero |}
         (logged ([SystemDB; Network]
                    ++ flat_map (scoringCall info (fst (GetIPs orcheEngine)))
                         cands) w1).
Proof.
  intros Hi Hid Hl.
  rewrite (RequestService_scoring _ _ _ _ _ _ _ Hi).
  unfold rankAndDispatch.
  assert (G : gatherDevicesScore ext orcheEngine cands w1
              = Done [] (logged ([SystemDB; Network]
                           ++ flat_map (scoringCall info
                                          (fst (GetIPs orcheEngine))) cands)
                           w1)).
  { rewrite gatherDevicesScore_round.
    rewrite (gatherRound_eq ext orcheEngine info cands w1 Hid). cbv zeta.
    assert (E : sends (map (reportOf orcheEngine info
                              (fst (GetIPs orcheEngine))) cands) = []).
    { clear Hi.
      induction Hl as [|c cands (e0 & others & He & Hc) _ IH];
        cbn [map]; [reflexivity|].
      rewrite (reportOf_Late orcheEngine info _ c e0 others He Hc).
      exact IH. }
    rewrite E, received_nil, firstn_nil. reflexivity. }
  rewrite (bind_Done _ _ _ _ _ G). now rewrite sortByScore_nil.
Qed.

End Winner.

(** ** The further properties at concrete inputs *)

Module Answers.

(** A ready engine none of whose scoring calls returns in time. *)
Definition engine_silent : orcheImpl :=
  {| Ready := true;
     GetIPs := (["10.0.0.1"], None);
     GetScore := fun _ => Late;
     DoGetScoreRemoteDevice := fun _ _ => Late |}.

Definition scored (name endpoint : string) (s : float64) : deviceScore :=
  {| id := name; endpoint := endpoint; score := s; execType := "native" |}.

(** The world after the request [Scenario.native_foo] has been served
    from [world_init]. *)
Definition served : world :=
  Scenario.claimed
    [CommandStore "foo"; ListenNotify 0; Resolver "foo" ["native"];
     SystemDB; Network; LocalScoring "me"; RemoteScoring "me" "10.0.0.3";
     Execute "10.0.0.1" "foo" ["/bin/foo"; "-v"] (Some 0)].

End Answers.

Lemma RequestService_table_full_witness :
  @RequestService quickSort12 Scenario.ext Scenario.engine
     Scenario.container_foo Cases.table_full = Panic.
Proof.
  apply (@RequestService_table_full quickSort12 Scenario.ext Scenario.engine
           Scenario.container_foo Cases.table_full).
  - reflexivity.
  - constructor; [left; reflexivity|constructor].
  - cbn. lia.
  - right. unfold maxClients. cbn. lia.
Defined.

Lemma RequestService_resolver_error_witness :
  @RequestService quickSort12 Cases.ext_unresolved Scenario.engine
     Scenario.container_foo world_init
  = Done {| Message := "no device";
            ResponseServiceName := "foo";
            RemoteTargetInfo := TargetInfo_zero |}
         (admitted Scenario.container_foo 0 world_init).
Proof.
  apply (@RequestService_resolver_error quickSort12 Cases.ext_unresolved
           Scenario.engine Scenario.container_foo world_init 0 "no device").
  - reflexivity.
  - constructor; [left; reflexivity|constructor].
  - reflexivity.
  - reflexivity.
Defined.

Lemma RequestService_claims_next_slot_witness :
  exists resp w',
    @RequestService quickSort12 Scenario.ext Scenario.engine
       Scenario.container_foo world_init = Done resp w'
    /\ orchClientID w' = (orchClientID world_init + 1)%Z
    /\ made w' = S (made world_init)
    /\ (let slot := nth (Z.to_nat (orchClientID world_init + 1))
                        (orcheClients w') orcheClient_zero in
        appName slot = ServiceName Scenario.container_foo
        /\ notiChan slot = Some (made world_init))
    /\ (forall j, j <> Z.to_nat (orchClientID world_init + 1) ->
          nth j (orcheClients w') orcheClient_zero
          = nth j (orcheClients world_init) orcheClient_zero
          /\ notiChan (nth j (orcheClients w') orcheClient_zero)
             <> Some (made world_init)).
Proof.
  apply (@RequestService_claims_next_slot quickSort12 Scenario.ext
           Scenario.engine Scenario.container_foo world_init).
  - reflexivity.
  - constructor; [left; reflexivity|constructor].
  - apply table_ok_init.
  - unfold maxClients. cbn. lia.
Defined.

Lemma RequestService_response_shape_witness :
  ResponseServiceName
    {| Message := "Not Found"; ResponseServiceName := "foo";
       RemoteTargetInfo := TargetInfo_zero |}
  = ServiceName Scenario.container_foo
  /\ (In "Not Found"
         [INTERNAL_SERVER_ERROR; NOT_ALLOWED_COMMAND; SERVICE_NOT_FOUND;
          "Not Found"; ERROR_NONE]
      \/ GetDeviceInfoWithService Scenario.ext "foo"
           (map ExecutionType (ServiceInfo Scenario.container_foo))
         = Err "Not Found")
  /\ ("Not Found" = ERROR_NONE \/ TargetInfo_zero = TargetInfo_zero).
Proof.
  apply (@RequestService_response_shape quickSort12 Scenario.ext
           Scenario.engine Scenario.container_foo world_init
           {| Message := "Not Found"; ResponseServiceName := "foo";
              RemoteTargetInfo := TargetInfo_zero |}
           Scenario.after_round).
  vm_compute. reflexivity.
Defined.

Lemma RequestService_executes_once_witness :
  exists cs,
    calls Answers.served = calls world_init ++ cs
    /\ (filter isExecute cs = []
        \/ exists variant,
             In variant (ServiceInfo Scenario.native_foo)
             /\ ExecutionType variant = "native"
             /\ allowed Scenario.ext_native "foo" variant
             /\ ERROR_NONE = ERROR_NONE
             /\ filter isExecute cs
                = [Execute "10.0.0.1" "foo" (ExeCmd variant) (Some 0)]).
Proof.
  apply (@RequestService_executes_once quickSort12 Scenario.ext_native
           Scenario.engine_scoring Scenario.native_foo world_init
           {| Message := ERROR_NONE; ResponseServiceName := "foo";
              RemoteTargetInfo :=
                {| TargetExecutionType := "native";
                   Target := "10.0.0.1" |} |}
           Answers.served).
  - apply table_ok_init.
  - vm_compute. reflexivity.
Defined.

Lemma gatherRound_late_candidate_witness :
  exists ds w',
    gatherRound Scenario.ext Answers.engine_silent
      [Scenario.placeholder "p1"; Scenario.remote1] world_init
    = Done (ds, Some TimedOut) w'
    /\ length ds < 2.
Proof.
  apply (gatherRound_late_candidate Scenario.ext Answers.engine_silent "me"
           [Scenario.placeholder "p1"; Scenario.remote1] Scenario.remote1
           "10.0.0.2" [] world_init).
  - reflexivity.
  - right. left. reflexivity.
  - reflexivity.
  - reflexivity.
Defined.

Lemma gatherDevicesScore_scoring_calls_witness :
  exists ds cs,
    gatherDevicesScore Scenario.ext_native Scenario.engine_scoring
      [Scenario.local_native; Scenario.placeholder "p1";
       Scenario.remote_native] world_init
    = Done ds (logged cs world_init)
    /\ Permutation (filter isScoring cs)
         (flat_map (scoringCall "me" ["10.0.0.1"])
            [Scenario.local_native; Scenario.placeholder "p1";
             Scenario.remote_native]).
Proof.
  apply (gatherDevicesScore_scoring_calls Scenario.ext_native
           Scenario.engine_scoring "me"
           [Scenario.local_native; Scenario.placeholder "p1";
            Scenario.remote_native] world_init).
  reflexivity.
Defined.

Lemma gatherDevicesScore_no_local_address_witness :
  exists ds cs,
    gatherDevicesScore Scenario.ext Scenario.engine_starting
      [Scenario.local_native; Scenario.placeholder "p1"] world_init
    = Done ds (logged cs world_init)
    /\ filter isScoring cs
       = flat_map (fun c => match Endpoint c with
                            | [] => []
                            | endpoint0 :: _ => [RemoteScoring "me" endpoint0]
                            end)
           [Scenario.local_native; Scenario.placeholder "p1"].
Proof.
  apply (gatherDevicesScore_no_local_address Scenario.ext
           Scenario.engine_starting "me"
           [Scenario.local_native; Scenario.placeholder "p1"] world_init).
  - reflexivity.
  - reflexivity.
Defined.

Lemma gatherDevicesScore_one_per_candidate_witness :
  exists chosen others,
    Forall2 scored_for chosen
      [Answers.scored "dev2" "10.0.0.3" 0.5%float;
       Answers.scored "dev0" "10.0.0.1" 0.75%float]
    /\ Permutation (chosen ++ others)
         [Scenario.local_native; Scenario.remote_native].
Proof.
  apply (gatherDevicesScore_one_per_candidate Scenario.ext_native
           Scenario.engine_scoring
           [Scenario.local_native; Scenario.remote_native] world_init
           [Answers.scored "dev2" "10.0.0.3" 0.5%float;
            Answers.scored "dev0" "10.0.0.1" 0.75%float]
           (logged [SystemDB; Network; LocalScoring "me";
                    RemoteScoring "me" "10.0.0.3"] world_init)).
  vm_compute. reflexivity.
Defined.

Lemma sortByScore_best_first_witness :
  In (Ranked.entry "g" 2%float) Ranked.seven
  /\ Forall (fun d => ge (score (Ranked.entry "g" 2%float)) (score d) = true)
       Ranked.seven.
Proof.
  apply (@sortByScore_best_first quickSort12 Ranked.seven
           (Ranked.entry "g" 2%float)
           [Ranked.entry "b" 1%float; Ranked.entry "c" 1%float;
            Ranked.entry "d" 1%float; Ranked.entry "e" 1%float;
            Ranked.entry "f" 1%float; Ranked.entry "a" 1%float]).
  - repeat constructor; vm_compute; reflexivity.
  - vm_compute. reflexivity.
Defined.

Lemma RequestService_selects_best_witness :
  exists winner,
    In winner [Answers.scored "dev2" "10.0.0.3" 0.5%float;
               Answers.scored "dev0" "10.0.0.1" 0.75%float]
    /\ "10.0.0.1" = endpoint winner
    /\ "native" = execType winner
    /\ Forall (fun d => ge (score winner) (score d) = true)
         [Answers.scored "dev2" "10.0.0.3" 0.5%float;
          Answers.scored "dev0" "10.0.0.1" 0.75%float].
Proof.
  apply (@RequestService_selects_best quickSort12 Scenario.ext_native
           Scenario.engine_scoring Scenario.native_foo world_init 0
           [Scenario.local_native; Scenario.remote_native]
           (Scenario.claimed [CommandStore "foo"; ListenNotify 0;
                              Resolver "foo" ["native"]])
           [Answers.scored "dev2" "10.0.0.3" 0.5%float;
            Answers.scored "dev0" "10.0.0.1" 0.75%float]
           (Scenario.claimed [CommandStore "foo"; ListenNotify 0;
                              Resolver "foo" ["native"]; SystemDB; Network;
                              LocalScoring "me";
                              RemoteScoring "me" "10.0.0.3"])
           {| Message := ERROR_NONE; ResponseServiceName := "foo";
              RemoteTargetInfo :=
                {| TargetExecutionType := "native";
                   Target := "10.0.0.1" |} |}
           Answers.served).
  - vm_compute. reflexivity.
  - vm_compute. reflexivity.
  - repeat constructor; vm_compute; reflexivity.
  - vm_compute. reflexivity.
  - reflexivity.
Defined.

Lemma RequestService_nobody_answers_witness :
  @RequestService quickSort12 Scenario.ext Answers.engine_silent
     Scenario.container_foo world_init
  = Done {| Message := SERVICE_NOT_FOUND;
            ResponseServiceName := "foo";
            RemoteTargetInfo := TargetInfo_zero |}
         (logged ([SystemDB; Network]
                    ++ flat_map (scoringCall "me" ["10.0.0.1"])
                         [Scenario.remote1]) Scenario.after_intake).
Proof.
  apply (@RequestService_nobody_answers quickSort12 Scenario.ext
           Answers.engine_silent Scenario.container_foo world_init 0
           [Scenario.remote1] Scenario.after_intake "me").
  - vm_compute. reflexivity.
  - reflexivity.
  - constructor; [|constructor].
    exists "10.0.0.2", []. split; reflexivity.
Defined.

(** ** Requests one after another *)

Section Lifetime.

Context {sorter : SortSlice}.
Variable ext : externals.
Variable orcheEngine : orcheImpl.

(** The requests are served in turn, each from the state the one
    before left. *)
Definition serve (reqs : list ReqeustService) : M (list ResponseService) :=
  mapM (RequestService ext orcheEngine) reqs.

(** Every variant of the request passes the validation loop. *)
Definition admissible (req : ReqeustService) : Prop :=
  Forall (allowed ext (ServiceName req)) (ServiceInfo req).

Lemma serve_room reqs w :
  Ready orcheEngine = true ->
  Forall admissible reqs ->
  table_ok w ->
  (orchClientID w + Z.of_nat (length reqs) < maxClients)%Z ->
  exists resps w',
    serve reqs w = Done resps w'
    /\ length resps = length reqs
    /\ orchClientID w' = (orchClientID w + Z.of_nat (length reqs))%Z
    /\ table_ok w'
    /\ (forall j, (Z.of_nat j <= orchClientID w)%Z ->
          nth j (orcheClients w') orcheClient_zero
          = nth j (orcheClients w) orcheClient_zero)
    /\ (forall i req, nth_error reqs i = Some req ->
          appName (nth (Z.to_nat (orchClientID w + 1) + i) (orcheClients w')
                       orcheClient_zero)
          = ServiceName req).
Proof.
  intros Hr Ha. revert w.
  induction Ha as [|req reqs Hreq _ IH]; intros w T Hc.
  - exists [], w. cbn [serve mapM length]. unfold ret.
    split; [reflexivity|]. split; [reflexivity|]. split; [lia|].
    split; [assumption|]. split; [reflexivity|].
    intros [|i] req H; discriminate H.
  - pose proof (table_counter w T) as C. cbn [length] in Hc.
    destruct (RequestService_admits_next ext orcheEngine req w Hr Hreq T)
      as (resp & w1 & H1 & Hc1 & _ & (Hname & _) & Hothers);
      [lia|].
    pose proof (RequestService_table_ok ext orcheEngine req w resp w1 T H1)
      as T1.
    destruct (IH w1 T1) as (resps & w' & Hs & Hl & Hc' & T' & Hkeep & Hnames);
      [lia|].
    exists (resp :: resps), w'. unfold serve in *. cbn [mapM].
    unfold bind at 1. rewrite H1. unfold bind at 1. rewrite Hs. unfold ret.
    split; [reflexivity|]. split; [cbn [length]; lia|].
    split; [cbn [length]; lia|]. split; [assumption|]. split.
    + intros j Hj. rewrite Hkeep by lia. apply Hothers. lia.
    + intros [|i] r Hi; cbn [nth_error] in Hi.
      * injection Hi as <-. rewrite Nat.add_0_r, Hkeep by lia. exact Hname.
      * rewrite <- (Hnames i r Hi). rewrite Hc1. f_equal. f_equal. lia.
Qed.

Lemma serve_overflow reqs w :
  Ready orcheEngine = true ->
  Forall admissible reqs ->
  table_ok w ->
  (maxClients <= orchClientID w + Z.of_nat (length reqs))%Z ->
  serve reqs w = Panic.
Proof.
  intros Hr Ha. revert w.
  induction Ha as [|req reqs Hreq _ IH]; intros w T Hc;
    pose proof (table_counter w T) as C.
  - cbn [length] in Hc. lia.
  - unfold serve in *. cbn [mapM]. cbn [length] in Hc.
    destruct (Z.eq_dec (orchClientID w) (maxClients - 1)) as [E|N].
    + apply bind_Panic. apply RequestService_no_room; try assumption.
      unfold maxClients in *. lia.
    + destruct (RequestService_admits_next ext orcheEngine req w Hr Hreq T)
        as (resp & w1 & H1 & Hc1 & _); [lia|].
      pose proof (RequestService_table_ok ext orcheEngine req w resp w1 T H1)
        as T1.
      unfold bind at 1. rewrite H1. apply bind_Panic. apply IH; [assumption|].
      lia.
Qed.

(** X20: Over the life of the process: requests that pass validation, served
    in turn by a ready engine, get the handles that follow the counter,
    one each, and each finds its service name in its own slot at the
    end, the slots handed out before being left as they were; all are
    answered as long as the handles stay below 1024, and serving more
    than the table has room for ends in a panic. *)
Theorem serve_until_table_full reqs w :
  Ready orcheEngine = true ->
  Forall admissible reqs ->
  table_ok w ->
  if (orchClientID w + Z.of_nat (length reqs) <? maxClients)%Z
  then exists resps w',
      serve reqs w = Done resps w'
      /\ length resps = length reqs
      /\ orchClientID w' = (orchClientID w + Z.of_nat (length reqs))%Z
      /\ (forall j, (Z.of_nat j <= orchClientID w)%Z ->
            nth j (orcheClients w') orcheClient_zero
            = nth j (orcheClients w) orcheClient_zero)
      /\ (forall i req, nth_error reqs i = Some req ->
            appName (nth (Z.to_nat (orchClientID w + 1) + i)
                         (orcheClients w') orcheClient_zero)
            = ServiceName req)
  else serve reqs w = Panic.
Proof.
  intros Hr Ha T.
  destruct (Z.ltb_spec (orchClientID w + Z.of_nat (length reqs)) maxClients)
    as [L|L].
  - destruct (serve_room reqs w Hr Ha T L)
      as (resps & w' & H1 & H2 & H3 & _ & H4 & H5).
    now exists resps, w'.
  - now apply serve_overflow.
Qed.

End Lifetime.

Lemma serve_until_table_full_witness :
  exists resps w',
    @serve quickSort12 Scenario.ext Scenario.engine
       [Scenario.container_foo; Scenario.native_foo] world_init
    = Done resps w'
    /\ length resps = 2
    /\ orchClientID w' = (-1 + 2)%Z
    /\ (forall j, (Z.of_nat j <= -1)%Z ->
          nth j (orcheClients w') orcheClient_zero
          = nth j (orcheClients world_init) orcheClient_zero)
    /\ (forall i req,
          nth_error [Scenario.container_foo; Scenario.native_foo] i
          = Some req ->
          appName (nth (Z.to_nat (-1 + 1) + i) (orcheClients w')
                       orcheClient_zero)
          = ServiceName req).
Proof.
  apply (@serve_until_table_full quickSort12 Scenario.ext Scenario.engine
           [Scenario.container_foo; Scenario.native_foo] world_init).
  - reflexivity.
  - constructor; [constructor; [left; reflexivity|constructor]|].
    constructor; [|constructor].
    constructor; [right; now exists ["-v"]|constructor].
  - apply table_ok_init.
Defined.
